(** * Face-oval mosaic: a shallow embedding of the two browser entry points

    The repository ships two TypeScript programs that share most of their
    text: the batch tool ([src/main.ts], module [Batch] below) and the
    single-image tool (module [Single]).  Both ask an external face-landmark
    detector for normalised landmarks, build a polygon from the 36 face-oval
    indices, pixelate the polygon's padded bounding box and paste the
    pixelated patch back through a polygonal clip.

    Conventions of the embedding:
    - a JavaScript [number] is an exact rational ([Q]); IEEE rounding, NaN and
      the infinities are outside the model;
    - a JavaScript string is its list of UTF-16 code units;
    - a thrown exception or a rejected promise is [None];
    - the 2D canvas is modelled by sampling at pixel centres: a pixel belongs
      to a path when the winding number of the path around the pixel's centre
      is not zero, and a pixel drawn from an image takes the colour of the
      sample under its centre.  Colours are opaque, so source-over
      compositing replaces the destination. *)

From Stdlib Require Import ZArith QArith Qround Qminmax Lia Lqa.
From Stdlib Require Import Ascii String.
From stdpp Require Import base option list gmap.

Local Open Scope Q_scope.

(** ** JavaScript values *)

Module JS.

Definition number := Q.

Definition Qlt_bool (a b : Q) : bool := negb (Qle_bool b a).

(** [Math.max], [Math.min], [Math.floor] and [Math.ceil]. *)
Definition Math_max (a b : number) : number := Qmax a b.
Definition Math_min (a b : number) : number := Qmin a b.
Definition Math_floor (a : number) : Z := Qfloor a.
Definition Math_ceil (a : number) : Z := Qceiling a.

(** Strings are sequences of UTF-16 code units. *)
Definition jsstring := list N.

Definition lit (s : string) : jsstring :=
  List.map N_of_ascii (list_ascii_of_string s).

(** [s.startsWith(p)] *)
Fixpoint startsWith (s p : jsstring) : bool :=
  match p, s with
  | [], _ => true
  | _ :: _, [] => false
  | a :: p', b :: s' => N.eqb a b && startsWith s' p'
  end.

(** White space and line terminators removed by [String.prototype.trim]. *)
Definition isWhiteSpace (c : N) : bool :=
  (((9 <=? c) && (c <=? 13)) || (c =? 32) || (c =? 160) || (c =? 5760)
   || ((8192 <=? c) && (c <=? 8202)) || (c =? 8232) || (c =? 8233)
   || (c =? 8239) || (c =? 8287) || (c =? 12288) || (c =? 65279))%N.

Fixpoint trimStart (s : jsstring) : jsstring :=
  match s with
  | c :: r => if isWhiteSpace c then trimStart r else s
  | [] => []
  end.

Definition trim (s : jsstring) : jsstring :=
  rev (trimStart (rev (trimStart s))).

End JS.

Import JS.

(** ** The 2D canvas *)

Module Canvas.

Definition colour := N.
Definition transparent : colour := 0%N.

Record raster := Raster {
  r_width : Z;
  r_height : Z;
  r_pix : Z -> Z -> colour
}.

Definition in_bounds (r : raster) (i j : Z) : bool :=
  ((0 <=? i) && (i <? r_width r) && (0 <=? j) && (j <? r_height r))%Z.

Definition empty_raster (r : raster) : bool :=
  ((r_width r <=? 0) || (r_height r <=? 0))%Z.

Definition point := (Q * Q)%type.
Definition px (p : point) : Q := fst p.
Definition py (p : point) : Q := snd p.

(** A subpath keeps its points newest first; a path keeps its subpaths
    newest first. *)
Definition subpath := list point.
Definition path := list subpath.

(** *** Winding numbers *)

Definition isLeft (a b c : point) : Q :=
  (px b - px a) * (py c - py a) - (px c - px a) * (py b - py a).

Definition edge_wn (c a b : point) : Z :=
  if Qle_bool (py a) (py c)
  then (if Qlt_bool (py c) (py b) && Qlt_bool 0 (isLeft a b c) then 1 else 0)%Z
  else (if Qle_bool (py b) (py c) && Qlt_bool (isLeft a b c) 0 then -1 else 0)%Z.

Fixpoint edges_wn (c first : point) (l : list point) : Z :=
  match l with
  | [] => 0%Z
  | a :: r =>
      match r with
      | [] => edge_wn c a first
      | b :: _ => (edge_wn c a b + edges_wn c first r)%Z
      end
  end.

(** Winding number of the closed polygon through [poly] around [c]. *)
Definition winding (c : point) (poly : list point) : Z :=
  match poly with
  | [] => 0%Z
  | p0 :: _ => edges_wn c p0 poly
  end.

Definition path_winding (c : point) (p : path) : Z :=
  fold_right (fun s acc => (winding c (rev s) + acc)%Z) 0%Z p.

(** Non-zero winding rule; every subpath is closed implicitly. *)
Definition in_path (p : path) (c : point) : bool :=
  negb (path_winding c p =? 0)%Z.

Definition centre (i j : Z) : point :=
  (inject_Z i + (1 # 2), inject_Z j + (1 # 2)).

(** [inside poly i j]: the centre of pixel [(i, j)] lies inside the closed
    polygon [poly]. *)
Definition inside (poly : list point) (i j : Z) : bool :=
  negb (winding (centre i j) poly =? 0)%Z.

(** *** Drawing state *)

Record ctx2d := Ctx {
  canvas : raster;
  cur_path : path;
  clip_region : list path;   (* the clip is the intersection *)
  imageSmoothingEnabled : bool;
  saved : list (list path * bool)
}.

Definition pixel (c : ctx2d) (i j : Z) : colour := r_pix (canvas c) i j.

(** A canvas element that has just been given its size, with the context
    [getContext("2d")] returns for it. *)
Definition newCanvas (w h : Z) : ctx2d :=
  {| canvas := Raster w h (fun _ _ => transparent);
     cur_path := [];
     clip_region := [];
     imageSmoothingEnabled := true;
     saved := [] |}.

Definition set_imageSmoothingEnabled (b : bool) (c : ctx2d) : ctx2d :=
  {| canvas := canvas c; cur_path := cur_path c;
     clip_region := clip_region c;
     imageSmoothingEnabled := b; saved := saved c |}.

Definition save (c : ctx2d) : ctx2d :=
  {| canvas := canvas c; cur_path := cur_path c;
     clip_region := clip_region c;
     imageSmoothingEnabled := imageSmoothingEnabled c;
     saved := (clip_region c, imageSmoothingEnabled c) :: saved c |}.

Definition restore (c : ctx2d) : ctx2d :=
  match saved c with
  | [] => c
  | (cl, sm) :: st =>
      {| canvas := canvas c; cur_path := cur_path c;
         clip_region := cl; imageSmoothingEnabled := sm; saved := st |}
  end.

Definition set_path (p : path) (c : ctx2d) : ctx2d :=
  {| canvas := canvas c; cur_path := p;
     clip_region := clip_region c;
     imageSmoothingEnabled := imageSmoothingEnabled c;
     saved := saved c |}.

Definition beginPath (c : ctx2d) : ctx2d := set_path [] c.

Definition moveTo (c : ctx2d) (p : point) : ctx2d :=
  set_path ([p] :: cur_path c) c.

Definition lineTo (c : ctx2d) (p : point) : ctx2d :=
  match cur_path c with
  | [] => set_path [[p]] c
  | s :: r => set_path ((p :: s) :: r) c
  end.

(** [closePath] closes the last subpath and opens a new one at the closed
    subpath's first point. *)
Definition closePath (c : ctx2d) : ctx2d :=
  match cur_path c with
  | [] => c
  | s :: r =>
      match rev s with
      | [] => c
      | p0 :: _ => set_path ([p0] :: s :: r) c
      end
  end.

Definition clip (c : ctx2d) : ctx2d :=
  {| canvas := canvas c; cur_path := cur_path c;
     clip_region := cur_path c :: clip_region c;
     imageSmoothingEnabled := imageSmoothingEnabled c;
     saved := saved c |}.

Definition in_clip (c : ctx2d) (p : point) : bool :=
  forallb (fun q => in_path q p) (clip_region c).

(** *** Images *)

(** The smoothing filter of the user agent: the colour it computes for the
    source position [(u, v)] when the source is scaled by [(kx, ky)].  The
    standard leaves the filter open, so it is a parameter. *)
Definition filter := raster -> Q -> Q -> Q -> Q -> option colour.

Definition nearest (img : raster) (u v : Q) : option colour :=
  let i := Qfloor u in
  let j := Qfloor v in
  if in_bounds img i j then Some (r_pix img i j) else None.

Definition nearest_filter : filter := fun img u v _ _ => nearest img u v.

Section Draw.

Variable smooth : filter.

Definition sample (smoothing : bool) (img : raster)
    (u v kx ky : Q) : option colour :=
  if smoothing then smooth img u v kx ky else nearest img u v.

Definition in_rect (dx dy dw dh : Q) (p : point) : bool :=
  Qle_bool dx (px p) && Qlt_bool (px p) (dx + dw)
  && Qle_bool dy (py p) && Qlt_bool (py p) (dy + dh).

(** [drawImage(img, sx, sy, sw, sh, dx, dy, dw, dh)].  An image without
    pixels is an [InvalidStateError]; samples that fall outside the source
    leave the destination alone. *)
Definition drawImage (c : ctx2d) (img : raster)
    (sx sy sw sh dx dy dw dh : Q) : option ctx2d :=
  if empty_raster img then None
  else Some
    {| canvas :=
         Raster (r_width (canvas c)) (r_height (canvas c))
           (fun i j =>
              let p := centre i j in
              if in_bounds (canvas c) i j && in_rect dx dy dw dh p
                 && in_clip c p
              then
                match sample (imageSmoothingEnabled c) img
                        (sx + (px p - dx) * sw / dw)
                        (sy + (py p - dy) * sh / dh)
                        (sw / dw) (sh / dh) with
                | Some col => col
                | None => pixel c i j
                end
              else pixel c i j);
       cur_path := cur_path c;
       clip_region := clip_region c;
       imageSmoothingEnabled := imageSmoothingEnabled c;
       saved := saved c |}.

(** [drawImage(img, dx, dy, dw, dh)]: the whole image into a rectangle. *)
Definition drawImage5 (c : ctx2d) (img : raster)
    (dx dy dw dh : Q) : option ctx2d :=
  drawImage c img 0 0 (inject_Z (r_width img)) (inject_Z (r_height img))
    dx dy dw dh.

(** [drawImage(img, dx, dy)]: the whole image at its own size. *)
Definition drawImage3 (c : ctx2d) (img : raster) (dx dy : Q)
    : option ctx2d :=
  drawImage5 c img dx dy
    (inject_Z (r_width img)) (inject_Z (r_height img)).

(** [clearRect(0, 0, w, h)] inside the clip. *)
Definition clearRect (c : ctx2d) (x y w h : Q) : ctx2d :=
  {| canvas :=
       Raster (r_width (canvas c)) (r_height (canvas c))
         (fun i j =>
            let p := centre i j in
            if in_rect x y w h p && in_clip c p
            then transparent else pixel c i j);
     cur_path := cur_path c;
     clip_region := clip_region c;
     imageSmoothingEnabled := imageSmoothingEnabled c;
     saved := saved c |}.

End Draw.

End Canvas.

Import Canvas.

(** ** Text shared by the two programs *)

(** [type Landmark = { x: number; y: number; z?: number }] *)
Record Landmark := mkLandmark {
  lm_x : number;
  lm_y : number;
  lm_z : option number
}.

(** A detected face: the array of its landmarks.  A hole or an [undefined]
    entry of the array is [None]. *)
Definition face := list (option Landmark).

Definition FACE_OVAL : list nat :=
  [10; 338; 297; 332; 284; 251; 389; 356; 454; 323;
   361; 288; 397; 365; 379; 378; 400; 377; 152; 148;
   176; 149; 150; 136; 172; 58; 132; 93; 234; 127;
   162; 21; 54; 103; 67; 109]%nat.

Definition clamp (v min max : number) : number :=
  Math_max min (Math_min max v).

(** [landmarks[i]]: [undefined] beyond the end of the array. *)
Definition at_index (landmarks : face) (i : nat) : option Landmark :=
  match landmarks !! i with
  | Some (Some p) => Some p
  | _ => None
  end.

(** [.filter(Boolean)] on an array of objects and [undefined]s. *)
Fixpoint filter_Boolean {A : Type} (l : list (option A)) : list A :=
  match l with
  | [] => []
  | Some a :: r => a :: filter_Boolean r
  | None :: r => filter_Boolean r
  end.

(** The first statement of both [mosaicFaceOval]s:
    [FACE_OVAL.map(i => landmarks[i]).filter(Boolean).map(p => ...)]. *)
Definition contourPoints (landmarks : face) (imgW imgH : number)
    : list point :=
  List.map (fun p => (lm_x p * imgW, lm_y p * imgH))
    (filter_Boolean (List.map (fun i => at_index landmarks i) FACE_OVAL)).

(** The bounding loop of both [mosaicFaceOval]s.  It runs on at least three
    points; its first round turns the infinite start values into the first
    point's coordinates. *)
Definition bounds_step (b : number * number * number * number) (p : point)
    : number * number * number * number :=
  let '(minX, minY, maxX, maxY) := b in
  (Math_min minX (px p), Math_min minY (py p),
   Math_max maxX (px p), Math_max maxY (py p)).

Definition bounds (p0 : point) (rest : list point)
    : number * number * number * number :=
  fold_left bounds_step rest (px p0, py p0, px p0, py p0).

Section Shared.

Variable smooth : filter.

Definition buildMosaicPatch (sourceCanvas : raster)
    (x y w h blockSize : number) : option raster :=
  let tmp1 := newCanvas (Math_ceil w) (Math_ceil h) in
  t1 ← drawImage smooth tmp1 sourceCanvas x y w h 0 0
         (inject_Z (r_width (canvas tmp1)))
         (inject_Z (r_height (canvas tmp1)));
  let sw := Z.max 1 (Math_floor (inject_Z (r_width (canvas t1)) / blockSize)) in
  let sh := Z.max 1 (Math_floor (inject_Z (r_height (canvas t1)) / blockSize)) in
  let tmp2 := set_imageSmoothingEnabled false (newCanvas sw sh) in
  t2 ← drawImage5 smooth tmp2 (canvas t1) 0 0 (inject_Z sw) (inject_Z sh);
  let out :=
    set_imageSmoothingEnabled false
      (newCanvas (r_width (canvas t1)) (r_height (canvas t1))) in
  o ← drawImage smooth out (canvas t2) 0 0 (inject_Z sw) (inject_Z sh) 0 0
        (inject_Z (r_width (canvas out)))
        (inject_Z (r_height (canvas out)));
  Some (canvas o).

(** The last statements of both [mosaicFaceOval]s: clip to the closed
    polygon through the points, draw the patch, undo the clip. *)
Definition pasteClipped (ctx2d : ctx2d) (p0 : point) (rest : list point)
    (mosaicked : raster) (x y : number) : option Canvas.ctx2d :=
  let c := save ctx2d in
  let c := beginPath c in
  let c := moveTo c p0 in
  let c := fold_left lineTo rest c in
  let c := closePath c in
  let c := clip c in
  let c := set_imageSmoothingEnabled false c in
  c ← drawImage3 smooth c mosaicked x y;
  Some (restore c).

End Shared.

(** ** External collaborators and effects *)

(** The WASM runtime files and a detector instance, known by identity. *)
Definition WasmFileset := N.
Definition FaceLandmarker := N.

(** What the network does during one run: whether
    [FilesetResolver.forVisionTasks] resolves, and whether
    [FaceLandmarker.createFromOptions] resolves for the given [numFaces]. *)
Record network := Network {
  forVisionTasks : option WasmFileset;
  createFromOptions : WasmFileset -> nat -> option FaceLandmarker
}.

(** [lm.detect(img).faceLandmarks ?? []]; [None] when the detector throws. *)
Definition detector := FaceLandmarker -> raster -> option (list face).

(** A [File]: its name, its MIME type and what [createImageBitmap] resolves
    with ([None] when the file cannot be decoded). *)
Record File := mkFile {
  f_name : jsstring;
  f_type : jsstring;
  f_bitmap : option raster
}.

(** Code that reads and writes the page's globals and may throw. *)
Module Eff.

Definition M (S A : Type) : Type := S -> option A * S.

Definition ret {S A} (a : A) : M S A := fun s => (Some a, s).
Definition throw {S A} : M S A := fun s => (None, s).
Definition bind {S A B} (m : M S A) (k : A -> M S B) : M S B :=
  fun s => match m s with
           | (Some a, s') => k a s'
           | (None, s') => (None, s')
           end.
Definition get {S} : M S S := fun s => (Some s, s).
Definition modify {S} (f : S -> S) : M S unit := fun s => (Some tt, f s).
Definition lift {S A} (o : option A) : M S A := fun s => (o, s).
(** [try { body } catch (e) { handler }] *)
Definition try_catch {S A} (body : M S A) (handler : M S A) : M S A :=
  fun s => match body s with
           | (Some a, s') => (Some a, s')
           | (None, s') => handler s'
           end.

End Eff.

Notation "x <~ c1 ;> c2" := (Eff.bind c1 (fun x => c2))
  (at level 20, c1 at level 99, c2 at level 200, only parsing).
Notation "c1 ;> c2" := (Eff.bind c1 (fun _ => c2))
  (at level 100, c2 at level 200, only parsing, right associativity).

(** [canvas.toBlob(..., "image/png")]: PNG is lossless, so the blob is the
    bitmap; a canvas without pixels yields [null] and the promise rejects. *)
Definition canvasToPngBlob {S} (c : raster) : Eff.M S raster :=
  if empty_raster c then Eff.throw else Eff.ret c.

(** ** The batch tool ([src/main.ts]) *)

Module Batch.

Inductive status_text :=
| StPrompt
| StInitializing
| StReady
| StProcessing (index total : nat) (name : jsstring)
| StNoFace (name : jsstring)
| StNoImages
| StZipping (n : nat)
| StDone (n : nat)
| StError.

(** The page's globals. *)
Record dom := Dom {
  strength : number;              (* Number(strengthEl.value) *)
  status : status_text;           (* statusEl.textContent *)
  preview : ctx2d;                (* preview and pctx *)
  downloadDisabled : bool;        (* downloadZipBtn.disabled *)
  landmarker : option FaceLandmarker;
  lastZipBlob : option (gmap jsstring raster)
}.

Definition set_status (v : status_text) (s : dom) : dom :=
  Dom (strength s) v (preview s) (downloadDisabled s) (landmarker s)
    (lastZipBlob s).
Definition set_preview (v : ctx2d) (s : dom) : dom :=
  Dom (strength s) (status s) v (downloadDisabled s) (landmarker s)
    (lastZipBlob s).
Definition set_downloadDisabled (v : bool) (s : dom) : dom :=
  Dom (strength s) (status s) (preview s) v (landmarker s) (lastZipBlob s).
Definition set_landmarker (v : option FaceLandmarker) (s : dom) : dom :=
  Dom (strength s) (status s) (preview s) (downloadDisabled s) v
    (lastZipBlob s).
Definition set_lastZipBlob (v : option (gmap jsstring raster)) (s : dom)
    : dom :=
  Dom (strength s) (status s) (preview s) (downloadDisabled s)
    (landmarker s) v.

Definition initLandmarker (net : network) : Eff.M dom FaceLandmarker :=
  st <~ Eff.get ;>
  match landmarker st with
  | Some l => Eff.ret l
  | None =>
      Eff.modify (set_status StInitializing) ;>
      vision <~ Eff.lift (forVisionTasks net) ;>
      l <~ Eff.lift (createFromOptions net vision 20) ;>
      Eff.modify (set_landmarker (Some l)) ;>
      Eff.modify (set_status StReady) ;>
      Eff.ret l
  end.

Definition region (b : number * number * number * number)
    (imgW imgH : number) : number * number * number * number :=
  let '(minX, minY, maxX, maxY) := b in
  let pad := 0.10 in
  let w := maxX - minX in
  let h := maxY - minY in
  let x := clamp (minX - w * pad) 0 imgW in
  let y := clamp (minY - h * pad) 0 imgH in
  let cw := clamp (w * (1 + pad * 2)) 1 (imgW - x) in
  let ch := clamp (h * (1 + pad * 2)) 1 (imgH - y) in
  (x, y, cw, ch).

(** The first [replace] of [safeBaseName] deletes the leftmost match of a
    dot followed, up to the end of the string, by one or more characters
    other than a dot. *)
Fixpoint stripExtension (name : jsstring) : jsstring :=
  match name with
  | [] => []
  | c :: r =>
      if (c =? 46)%N
         && negb (Nat.eqb (length r) 0)
         && forallb (fun d => negb (d =? 46)%N) r
      then []
      else c :: stripExtension r
  end.

(** The character class of the second [replace]: backslash, slash, colon,
    star, question mark, double quote, angle brackets and bar. *)
Definition unsafeChar (c : N) : bool :=
  ((c =? 92) || (c =? 47) || (c =? 58) || (c =? 42) || (c =? 63)
   || (c =? 34) || (c =? 60) || (c =? 62) || (c =? 124))%N.

Definition safeBaseName (name : jsstring) : jsstring :=
  let base := stripExtension name in
  let cleaned :=
    trim (List.map (fun c => if unsafeChar c then 95%N else c) base) in
  match cleaned with
  | [] => lit "image"
  | _ :: _ => cleaned
  end.

Definition entryName (name : jsstring) : jsstring :=
  safeBaseName name ++ lit "_mosaic.png".

Section Pipeline.

Variable smooth : filter.
Variable detect : detector.

Definition mosaicFaceOval (ctx2d : ctx2d) (landmarks : face)
    (imgW imgH blockSize : number) : option Canvas.ctx2d :=
  let pts := contourPoints landmarks imgW imgH in
  if (length pts <? 3)%nat then Some ctx2d
  else
    match pts with
    | [] => None
    | p0 :: rest =>
        let '(x, y, cw, ch) := region (bounds p0 rest) imgW imgH in
        mosaicked ← buildMosaicPatch smooth (canvas ctx2d) x y cw ch blockSize;
        pasteClipped smooth ctx2d p0 rest mosaicked x y
    end.

(** The loop [for (const face of faces)] of [processOneFile]: every face
    goes onto the output canvas and onto the preview. *)
Fixpoint eachFace (faces : list face) (ctx : ctx2d)
    (imgW imgH strength : number) : Eff.M dom ctx2d :=
  match faces with
  | [] => Eff.ret ctx
  | f :: more =>
      ctx' <~ Eff.lift (mosaicFaceOval ctx f imgW imgH strength) ;>
      st <~ Eff.get ;>
      pctx <~ Eff.lift (mosaicFaceOval (preview st) f imgW imgH strength) ;>
      Eff.modify (set_preview pctx) ;>
      eachFace more ctx' imgW imgH strength
  end.

Definition processOneFile (net : network) (file : File)
    (index total : nat) : Eff.M dom (jsstring * raster) :=
  lm <~ initLandmarker net ;>
  st <~ Eff.get ;>
  let strength := strength st in
  Eff.modify (set_status (StProcessing index total (f_name file))) ;>
  img <~ Eff.lift (f_bitmap file) ;>
  let c := newCanvas (r_width img) (r_height img) in
  let ctx := set_imageSmoothingEnabled true c in
  ctx <~ Eff.lift (drawImage3 smooth ctx img 0 0) ;>
  faces <~ Eff.lift (detect lm img) ;>
  let pctx :=
    set_imageSmoothingEnabled true
      (newCanvas (r_width img) (r_height img)) in
  let pctx :=
    clearRect pctx 0 0 (inject_Z (r_width (canvas pctx)))
      (inject_Z (r_height (canvas pctx))) in
  Eff.modify (set_preview pctx) ;>
  pctx <~ Eff.lift (drawImage3 smooth pctx img 0 0) ;>
  Eff.modify (set_preview pctx) ;>
  match faces with
  | [] =>
      Eff.modify (set_status (StNoFace (f_name file))) ;>
      blob <~ canvasToPngBlob (canvas ctx) ;>
      Eff.ret (entryName (f_name file), blob)
  | _ :: _ =>
      ctx <~ eachFace faces ctx (inject_Z (r_width img))
               (inject_Z (r_height img)) strength ;>
      blob <~ canvasToPngBlob (canvas ctx) ;>
      Eff.ret (entryName (f_name file), blob)
  end.

(** The loop [for (const f of imgs)] of [handleFiles]; [zip.file] adds
    the entry or replaces the entry of that name. *)
Fixpoint eachFile (net : network) (imgs : list File) (i total : nat)
    (zip : gmap jsstring raster) : Eff.M dom (gmap jsstring raster) :=
  match imgs with
  | [] => Eff.ret zip
  | f :: more =>
      let i := (i + 1)%nat in
      out <~ processOneFile net f i total ;>
      eachFile net more i total (<[fst out := snd out]> zip)
  end.

Definition handleFiles (net : network) (files : list File)
    : Eff.M dom unit :=
  match files with
  | [] => Eff.ret tt
  | _ :: _ =>
      let imgs :=
        List.filter (fun f => startsWith (f_type f) (lit "image/")) files in
      match imgs with
      | [] => Eff.modify (set_status StNoImages)
      | _ :: _ =>
          Eff.modify (set_downloadDisabled true) ;>
          Eff.modify (set_lastZipBlob None) ;>
          Eff.try_catch
            (zip <~ eachFile net imgs 0 (length imgs) ∅ ;>
             Eff.modify (set_status (StZipping (length imgs))) ;>
             Eff.modify (set_lastZipBlob (Some zip)) ;>
             Eff.modify (set_downloadDisabled false) ;>
             Eff.modify (set_status (StDone (length imgs))))
            (Eff.modify (set_status StError))
      end
  end.

End Pipeline.

End Batch.

(** ** The single-image tool *)

Module Single.

Inductive status_text :=
| StInitializing
| StReady
| StLoading
| StDetecting
| StNotFound
| StDone (faces : nat)
| StError.

Record dom := Dom {
  strength : number;              (* Number(strengthEl.value) *)
  status : status_text;           (* statusEl.textContent *)
  ctx : ctx2d;                    (* canvas and ctx *)
  landmarker : option FaceLandmarker
}.

Definition set_status (v : status_text) (s : dom) : dom :=
  Dom (strength s) v (ctx s) (landmarker s).
Definition set_ctx (v : ctx2d) (s : dom) : dom :=
  Dom (strength s) (status s) v (landmarker s).
Definition set_landmarker (v : option FaceLandmarker) (s : dom) : dom :=
  Dom (strength s) (status s) (ctx s) v.

Definition initLandmarker (net : network) : Eff.M dom FaceLandmarker :=
  st <~ Eff.get ;>
  match landmarker st with
  | Some l => Eff.ret l
  | None =>
      Eff.modify (set_status StInitializing) ;>
      vision <~ Eff.lift (forVisionTasks net) ;>
      l <~ Eff.lift (createFromOptions net vision 10) ;>
      Eff.modify (set_landmarker (Some l)) ;>
      Eff.modify (set_status StReady) ;>
      Eff.ret l
  end.

Definition expand : number := 1.12.

(** [rawPts.reduce((s, p) => s + p.x, 0) / rawPts.length] and its twin. *)
Definition centroid (rawPts : list point) : point :=
  (fold_left (fun s p => s + px p) rawPts 0
     / inject_Z (Z.of_nat (length rawPts)),
   fold_left (fun s p => s + py p) rawPts 0
     / inject_Z (Z.of_nat (length rawPts))).

Definition expandPoints (rawPts : list point) : list point :=
  let cx := px (centroid rawPts) in
  let cy := py (centroid rawPts) in
  List.map (fun p => (cx + (px p - cx) * expand, cy + (py p - cy) * expand))
    rawPts.

Definition effectiveBlock (b : number * number * number * number)
    : number :=
  let '(minX, minY, maxX, maxY) := b in
  let w := maxX - minX in
  Math_max 12 (Math_min 32 (w / 12)).

Definition region (b : number * number * number * number)
    (imgW imgH : number) : number * number * number * number :=
  let '(minX, minY, maxX, maxY) := b in
  let w := maxX - minX in
  let h := maxY - minY in
  let pad := 0.08 in
  let x := clamp (minX - w * pad) 0 imgW in
  let y := clamp (minY - h * pad) 0 imgH in
  let cw := clamp (w * (1 + pad * 2)) 1 (imgW - x) in
  let ch := clamp (h * (1 + pad * 2)) 1 (imgH - y) in
  (x, y, cw, ch).

Section Pipeline.

Variable smooth : filter.
Variable detect : detector.

Definition mosaicFaceOval (ctx2d : ctx2d) (landmarks : face)
    (imgW imgH : number) : option Canvas.ctx2d :=
  let rawPts := contourPoints landmarks imgW imgH in
  if (length rawPts <? 3)%nat then Some ctx2d
  else
    let pts := expandPoints rawPts in
    match pts with
    | [] => None
    | p0 :: rest =>
        let b := bounds p0 rest in
        let '(x, y, cw, ch) := region b imgW imgH in
        mosaicked ← buildMosaicPatch smooth (canvas ctx2d) x y cw ch
                      (effectiveBlock b);
        pasteClipped smooth ctx2d p0 rest mosaicked x y
    end.

(** The loop [for (const face of faces)] of [processFile]. *)
Fixpoint eachFace (faces : list face) (imgW imgH : number)
    : Eff.M dom unit :=
  match faces with
  | [] => Eff.ret tt
  | f :: more =>
      st <~ Eff.get ;>
      c <~ Eff.lift (mosaicFaceOval (ctx st) f imgW imgH) ;>
      Eff.modify (set_ctx c) ;>
      eachFace more imgW imgH
  end.

Definition processFile (net : network) (f : File) : Eff.M dom unit :=
  Eff.try_catch
    (lm <~ initLandmarker net ;>
     Eff.modify (set_status StLoading) ;>
     img <~ Eff.lift (f_bitmap f) ;>
     let c :=
       set_imageSmoothingEnabled true
         (newCanvas (r_width img) (r_height img)) in
     let c :=
       clearRect c 0 0 (inject_Z (r_width (canvas c)))
         (inject_Z (r_height (canvas c))) in
     Eff.modify (set_ctx c) ;>
     c <~ Eff.lift (drawImage3 smooth c img 0 0) ;>
     Eff.modify (set_ctx c) ;>
     Eff.modify (set_status StDetecting) ;>
     faces <~ Eff.lift (detect lm img) ;>
     match faces with
     | [] => Eff.modify (set_status StNotFound)
     | _ :: _ =>
         eachFace faces (inject_Z (r_width img)) (inject_Z (r_height img)) ;>
         Eff.modify (set_status (StDone (length faces)))
     end)
    (Eff.modify (set_status StError)).

End Pipeline.

End Single.

(** ** The behaviour the specification describes, in its own words *)

Module Spec.

(** Section 4.1: for each index of the set, in order, look the landmark up,
    skip it when it is absent, scale it to pixel space otherwise. *)
Fixpoint select (indices : list nat) (landmarks : face) (W H : number)
    : list point :=
  match indices with
  | [] => []
  | i :: more =>
      match at_index landmarks i with
      | Some p => (lm_x p * W, lm_y p * H) :: select more landmarks W H
      | None => select more landmarks W H
      end
  end.

(** Section 6: the final extension is what follows the last dot, when
    something follows it. *)
Definition isDot (c : N) : bool := (c =? 46)%N.

(** The characters before the first dot. *)
Fixpoint untilDot (l : jsstring) : jsstring :=
  match l with
  | c :: r => if isDot c then [] else c :: untilDot r
  | [] => []
  end.

Definition stripFinalExtension (name : jsstring) : jsstring :=
  let ext := untilDot (rev name) in
  if forallb (fun c => negb (isDot c)) name then name
  else
    match ext with
    | [] => name
    | _ :: _ => rev (List.skipn (S (length ext)) (rev name))
    end.

Definition replaceUnsafe (s : jsstring) : jsstring :=
  List.map (fun c => if Batch.unsafeChar c then 95%N else c) s.

Definition orDefault (s : jsstring) : jsstring :=
  match s with
  | [] => lit "image"
  | _ :: _ => s
  end.

(** The entry name as section 6 words it: strip, replace, fall back. *)
Definition entryName (name : jsstring) : jsstring :=
  orDefault (replaceUnsafe (stripFinalExtension name)) ++ lit "_mosaic.png".

(** The same with the trimming of white space the code performs between
    the replacement and the fall-back. *)
Definition entryNameTrimmed (name : jsstring) : jsstring :=
  orDefault (trim (replaceUnsafe (stripFinalExtension name)))
    ++ lit "_mosaic.png".

(** Section 4.2, step 2: every point moved away from [c] by the factor
    [e]. *)
Definition expandAbout (c : point) (e : number) (pts : list point)
    : list point :=
  List.map
    (fun p => (px c + (px p - px c) * e, py c + (py p - py c) * e)) pts.

Definition sum (l : list number) : number := fold_right Qplus 0 l.

(** Section 4.2, step 4: the padded box clamped to the image. *)
Definition boundingRegion (p : number)
    (b : number * number * number * number) (W H : number)
    : number * number * number * number :=
  let '(minX, minY, maxX, maxY) := b in
  let w := maxX - minX in
  let h := maxY - minY in
  let x := clamp (minX - w * p) 0 W in
  let y := clamp (minY - h * p) 0 H in
  (x, y, clamp (w * (1 + p * 2)) 1 (W - x), clamp (h * (1 + p * 2)) 1 (H - y)).

(** The path a context holds after the closed loop through [pts] has been
    traced: the loop, and the subpath [closePath] opens at its start. *)
Definition closedLoop (pts : list point) : path :=
  match pts with
  | [] => []
  | p0 :: rest => [[p0]; rev rest ++ [p0]]
  end.

End Spec.

(** * Notions the statements use *)

(** ** Effects *)


(** The user moves the slider. *)
Definition single_set_strength (v : number) (s : Single.dom) : Single.dom :=
  Single.Dom v (Single.status s) (Single.ctx s) (Single.landmarker s).

(** A computation that neither reads nor writes the slider. *)
Definition ignores_slider {A : Type} (m : Eff.M Single.dom A) : Prop :=
  forall (v : number) (st : Single.dom),
    m (single_set_strength v st)
    = (fst (m st), single_set_strength v (snd (m st))).

(** Computations that leave the last archive alone. *)
Definition keeps_archive {A : Type} (m : Eff.M Batch.dom A) : Prop :=
  forall st : Batch.dom,
    Batch.lastZipBlob (snd (m st)) = Batch.lastZipBlob st.

(** The faces of one image composited in turn at one block size. *)
Fixpoint composeAll (compose : Canvas.ctx2d -> face -> option Canvas.ctx2d)
    (faces : list face) (c : Canvas.ctx2d) : option Canvas.ctx2d :=
  match faces with
  | [] => Some c
  | f :: more => compose c f ≫= composeAll compose more
  end.

(** The entry names of a list of files. *)
Definition entryNames (imgs : list File) : list jsstring :=
  List.map (fun f => Batch.entryName (f_name f)) imgs.

(** A filter that returns the pixel itself when nothing is scaled and the
    sample falls on a pixel centre. *)
Definition exact_at_unit_scale (smooth : filter) : Prop :=
  forall (img : raster) (i j : Z) (u v kx ky : Q),
    in_bounds img i j = true ->
    u == inject_Z i + (1 # 2) -> v == inject_Z j + (1 # 2) ->
    kx == 1 -> ky == 1 ->
    smooth img u v kx ky = Some (r_pix img i j).

(** ** Sample inputs *)

(** A face of 478 landmarks that all sit on the right edge of the image. *)
Definition rightEdgeFace : face :=
  List.map (fun i => Some (mkLandmark 1 (inject_Z (Z.of_nat i) / 512) None))
    (seq 0 478).

Fixpoint indexOf (i : nat) (l : list nat) : option nat :=
  match l with
  | [] => None
  | a :: r => if Nat.eqb a i then Some 0%nat else option_map S (indexOf i r)
  end.

(** Thirty-six points around the square from (14, 14) to (50, 50). *)
Definition squarePoint (k : nat) : Q * Q :=
  let t := inject_Z (Z.of_nat (4 * (k mod 9))) in
  match (k / 9)%nat with
  | 0%nat => (14 + t, 14)
  | 1%nat => (50, 14 + t)
  | 2%nat => (50 - t, 50)
  | _ => (14, 50 - t)
  end.

(** A face of 478 landmarks on a 64 x 64 image whose face oval is that
    square; the other landmarks sit in the middle. *)
Definition squareFace : face :=
  List.map
    (fun i =>
       match indexOf i FACE_OVAL with
       | Some k =>
           Some (mkLandmark (fst (squarePoint k) / 64)
                   (snd (squarePoint k) / 64) None)
       | None => Some (mkLandmark (1 # 2) (1 # 2) None)
       end)
    (seq 0 478).

(** An image in which no two pixels have the same colour. *)
Definition gradient (w h : Z) : raster :=
  Raster w h (fun i j => Z.to_N (i + w * j)).

Definition canvasOf (r : raster) : Canvas.ctx2d := Ctx r [] [] true [].

Definition online : network := Network (Some 1%N) (fun _ _ => Some 7%N).
Definition noFaces : detector := fun _ _ => Some [].

Definition idle : Batch.dom :=
  Batch.Dom 16 Batch.StPrompt (newCanvas 300 150) true None None.

Definition fileA : File :=
  mkFile (lit "a.png") (lit "image/png") (Some (gradient 2 2)).
Definition fileB : File :=
  mkFile (lit "a.jpg") (lit "image/jpeg") (Some (gradient 3 3)).

(** * Properties *)

(** ** Numbers *)

Lemma Qlt_bool_iff (a b : Q) : Qlt_bool a b = true <-> a < b.
Proof.
  unfold Qlt_bool. rewrite negb_true_iff.
  split; intros H.
  - apply Qnot_le_lt. intros Hle. apply Qle_bool_iff in Hle. congruence.
  - destruct (Qle_bool b a) eqn:E; [|reflexivity].
    apply Qle_bool_iff in E. exfalso. apply (Qlt_not_le a b H E).
Qed.

Lemma clamp_lower (v lo hi : Q) : lo <= clamp v lo hi.
Proof. unfold clamp, Math_max. apply Q.le_max_l. Qed.

Lemma clamp_upper (v lo hi : Q) : lo <= hi -> clamp v lo hi <= hi.
Proof.
  intros H. unfold clamp, Math_max, Math_min.
  apply Q.max_lub; [exact H | apply Q.le_min_l].
Qed.

(** When the bounds cross, the lower bound wins. *)
Lemma clamp_crossed (v lo hi : Q) : hi <= lo -> clamp v lo hi == lo.
Proof.
  intros H. unfold clamp, Math_max, Math_min.
  apply Q.max_l. eapply Qle_trans; [apply Q.le_min_l | exact H].
Qed.

(** ** Landmark selection *)

Lemma filter_Boolean_select (indices : list nat) (lm : face) (W H : number) :
  List.map (fun p => (lm_x p * W, lm_y p * H))
    (filter_Boolean (List.map (fun i => at_index lm i) indices))
  = Spec.select indices lm W H.
Proof.
  induction indices as [|i more IH]; simpl; [reflexivity|].
  destruct (at_index lm i); simpl; [f_equal|]; exact IH.
Qed.

Lemma at_index_None (lm : face) (i : nat) :
  at_index lm i = None <-> (length lm <= i)%nat \/ lm !! i = Some None.
Proof.
  unfold at_index. destruct (lm !! i) as [[p|]|] eqn:E.
  - split; [discriminate|]. intros [Hge|Hn]; [|discriminate].
    apply lookup_ge_None_2 in Hge. unfold face in *. rewrite E in Hge. discriminate.
  - split; [right; reflexivity | reflexivity].
  - split; [|reflexivity]. intros _. left. apply lookup_ge_None. exact E.
Qed.

Lemma select_length (indices : list nat) (lm : face) (W H : number) :
  (length (Spec.select indices lm W H) <= length indices)%nat.
Proof.
  induction indices as [|i more IH]; simpl; [lia|].
  destruct (at_index lm i); simpl; lia.
Qed.

(** C7. The contour points of a face are the pixel-space images of the
    landmarks found at the 36 face-oval indices, taken in the order of the
    index list; an index whose landmark is undefined or lies beyond the end
    of the array contributes nothing, and nothing else is dropped. *)
Theorem landmark_subset_selection :
  length FACE_OVAL = 36%nat
  /\ forall (lm : face) (W H : number),
       contourPoints lm W H = Spec.select FACE_OVAL lm W H
       /\ (length (contourPoints lm W H) <= 36)%nat
       /\ forall i : nat,
            at_index lm i = None
            <-> (length lm <= i)%nat \/ lm !! i = Some None.
Proof.
  split; [reflexivity|].
  intros lm W H. split; [|split].
  - unfold contourPoints. apply filter_Boolean_select.
  - unfold contourPoints. rewrite filter_Boolean_select.
    apply (select_length FACE_OVAL).
  - intros i. apply at_index_None.
Qed.

(** ** Faces without a contour *)

Lemma batch_skip (smooth : filter) (c : ctx2d) (f : face) (W H bs : number) :
  (length (contourPoints f W H) < 3)%nat ->
  Batch.mosaicFaceOval smooth c f W H bs = Some c.
Proof.
  intros Hlen. unfold Batch.mosaicFaceOval.
  destruct (Nat.ltb_spec (length (contourPoints f W H)) 3); [reflexivity|lia].
Qed.

Lemma single_skip (smooth : filter) (c : ctx2d) (f : face) (W H : number) :
  (length (contourPoints f W H) < 3)%nat ->
  Single.mosaicFaceOval smooth c f W H = Some c.
Proof.
  intros Hlen. unfold Single.mosaicFaceOval.
  destruct (Nat.ltb_spec (length (contourPoints f W H)) 3); [reflexivity|lia].
Qed.

Lemma batch_eachFace_skip (smooth : filter) (f : face) (W H bs : number) :
  (length (contourPoints f W H) < 3)%nat ->
  forall (before after : list face) (c : ctx2d) (st : Batch.dom),
    Batch.eachFace smooth (before ++ f :: after) c W H bs st
    = Batch.eachFace smooth (before ++ after) c W H bs st.
Proof.
  intros Hlen before after.
  induction before as [|g before IH]; intros c st; simpl.
  - unfold Eff.bind, Eff.lift, Eff.get, Eff.modify.
    rewrite !batch_skip by exact Hlen. destruct st; reflexivity.
  - unfold Eff.bind, Eff.lift, Eff.get, Eff.modify.
    destruct (Batch.mosaicFaceOval smooth c g W H bs); [|reflexivity].
    destruct (Batch.mosaicFaceOval smooth (Batch.preview st) g W H bs);
      [|reflexivity].
    apply IH.
Qed.

Lemma single_eachFace_skip (smooth : filter) (f : face) (W H : number) :
  (length (contourPoints f W H) < 3)%nat ->
  forall (before after : list face) (st : Single.dom),
    Single.eachFace smooth (before ++ f :: after) W H st
    = Single.eachFace smooth (before ++ after) W H st.
Proof.
  intros Hlen before after.
  induction before as [|g before IH]; intros st; simpl.
  - unfold Eff.bind, Eff.lift, Eff.get, Eff.modify.
    rewrite single_skip by exact Hlen. destruct st; reflexivity.
  - unfold Eff.bind, Eff.lift, Eff.get, Eff.modify.
    destruct (Single.mosaicFaceOval smooth (Single.ctx st) g W H);
      [|reflexivity].
    apply IH.
Qed.

(** C3. A face whose contour has fewer than three points leaves the surface
    exactly as it was and raises nothing, in both programs; and in the loop
    over the faces of an image such a face can be struck from the list
    without changing what the loop does for the faces before and after it. *)
Theorem skip_correctness (smooth : filter) (f : face) (W H bs : number) :
  (length (contourPoints f W H) < 3)%nat ->
  (forall c : ctx2d,
     Batch.mosaicFaceOval smooth c f W H bs = Some c
     /\ Single.mosaicFaceOval smooth c f W H = Some c)
  /\ (forall (before after : list face) (c : ctx2d) (st : Batch.dom),
        Batch.eachFace smooth (before ++ f :: after) c W H bs st
        = Batch.eachFace smooth (before ++ after) c W H bs st)
  /\ (forall (before after : list face) (st : Single.dom),
        Single.eachFace smooth (before ++ f :: after) W H st
        = Single.eachFace smooth (before ++ after) W H st).
Proof.
  intros Hlen. split; [|split].
  - intros c. split; [apply batch_skip | apply single_skip]; exact Hlen.
  - apply batch_eachFace_skip. exact Hlen.
  - apply single_eachFace_skip. exact Hlen.
Qed.

(** ** The bounding region *)

(** What the four clamps do give: the corner lies in the image and the
    region is at least one pixel wide and high; the far sides stay in the
    image when the corner leaves room for one pixel. *)
Lemma batch_region_partial (b : number * number * number * number)
    (W H x y cw ch : number) :
  0 <= W -> 0 <= H ->
  Batch.region b W H = (x, y, cw, ch) ->
  (0 <= x /\ x <= W) /\ (0 <= y /\ y <= H) /\ 1 <= cw /\ 1 <= ch
  /\ (x <= W - 1 -> x + cw <= W) /\ (y <= H - 1 -> y + ch <= H).
Proof.
  intros HW HH. destruct b as [[[minX minY] maxX] maxY].
  unfold Batch.region. intros E. injection E as <- <- <- <-.
  repeat split; try apply clamp_lower; try (apply clamp_upper; assumption).
  - intros Hx.
    pose proof (clamp_upper
      ((maxX - minX) * (1 + 0.10 * 2)) 1
      (W - clamp (minX - (maxX - minX) * 0.10) 0 W)) as Hc.
    lra.
  - intros Hy.
    pose proof (clamp_upper
      ((maxY - minY) * (1 + 0.10 * 2)) 1
      (H - clamp (minY - (maxY - minY) * 0.10) 0 H)) as Hc.
    lra.
Qed.

(** C2. On a 100 x 100 image, the face whose landmarks all have [x = 1]
    yields 36 contour points and the region [x = 100], [width = 1]: the
    region leaves the image on the right, [x + width = 101 > 100]. *)
Theorem bounding_region_overhang :
  length (contourPoints rightEdgeFace 100 100) = 36%nat
  /\ exists (p0 : point) (rest : list point) (x y cw ch : number),
       contourPoints rightEdgeFace 100 100 = p0 :: rest
       /\ Batch.region (bounds p0 rest) 100 100 = (x, y, cw, ch)
       /\ x == 100 /\ cw == 1 /\ ~ x + cw <= 100.
Proof.
  split; [vm_compute; reflexivity|].
  eexists _, _, _, _, _, _.
  split; [vm_compute; reflexivity|].
  split; [vm_compute; reflexivity|].
  split; [|split]; vm_compute; congruence.
Qed.

(** ** Archive entry names *)

Lemma stripExtension_no_dot (s : jsstring) :
  forallb (fun d => negb (d =? 46)%N) s = true ->
  Batch.stripExtension s = s.
Proof.
  induction s as [|c r IH]; simpl; [reflexivity|].
  intros H. apply andb_true_iff in H as [Hc Hr].
  apply negb_true_iff in Hc. rewrite Hc. simpl. f_equal. apply IH, Hr.
Qed.

Lemma stripExtension_last_dot (pre ext : jsstring) :
  forallb (fun d => negb (d =? 46)%N) ext = true ->
  Batch.stripExtension (pre ++ 46%N :: ext)
  = match ext with [] => pre ++ [46%N] | _ :: _ => pre end.
Proof.
  intros Hext. induction pre as [|c pre IH]; simpl.
  - rewrite Hext. destruct ext as [|e ext]; simpl; [reflexivity|reflexivity].
  - replace (forallb (fun d => negb (d =? 46)%N) (pre ++ 46%N :: ext))
      with false.
    + rewrite !andb_false_r. rewrite IH.
      destruct ext; reflexivity.
    + symmetry. rewrite forallb_app. simpl. apply andb_false_r.
Qed.

Lemma untilDot_app (a b : jsstring) :
  forallb (fun d => negb (Spec.isDot d)) a = true ->
  Spec.untilDot (a ++ 46%N :: b) = a.
Proof.
  induction a as [|c a IH]; simpl; [reflexivity|].
  intros H. apply andb_true_iff in H as [Hc Ha].
  apply negb_true_iff in Hc. rewrite Hc. f_equal. apply IH, Ha.
Qed.

Lemma forallb_rev {A : Type} (p : A -> bool) (l : list A) :
  forallb p (rev l) = forallb p l.
Proof.
  induction l as [|a l IH]; simpl; [reflexivity|].
  rewrite forallb_app, IH. simpl. rewrite andb_true_r. apply andb_comm.
Qed.

Lemma stripFinalExtension_last_dot (pre ext : jsstring) :
  forallb (fun d => negb (d =? 46)%N) ext = true ->
  Spec.stripFinalExtension (pre ++ 46%N :: ext)
  = match ext with [] => pre ++ [46%N] | _ :: _ => pre end.
Proof.
  intros Hext. unfold Spec.stripFinalExtension.
  replace (forallb (fun c => negb (Spec.isDot c)) (pre ++ 46%N :: ext))
    with false
    by (symmetry; rewrite forallb_app; simpl; apply andb_false_r).
  rewrite rev_app_distr. simpl rev. rewrite <- app_assoc. simpl app.
  rewrite untilDot_app by (rewrite forallb_rev; exact Hext).
  destruct ext as [|e ext]; [reflexivity|].
  remember (rev (e :: ext)) as r eqn:Er.
  destruct r as [|r0 r].
  - apply (f_equal (@length N)) in Er. rewrite length_rev in Er. discriminate.
  - replace ((r0 :: r) ++ 46%N :: rev pre)
      with (((r0 :: r) ++ [46%N]) ++ rev pre)
      by (rewrite <- app_assoc; reflexivity).
    replace (S (length (r0 :: r))) with (length ((r0 :: r) ++ [46%N]))
      by (rewrite length_app; simpl; lia).
    rewrite skipn_app, Nat.sub_diag, skipn_all. simpl.
    apply rev_involutive.
Qed.

(** Every name either has no dot or splits at its last dot. *)
Lemma last_dot_split (s : jsstring) :
  forallb (fun d => negb (d =? 46)%N) s = true
  \/ exists pre ext : jsstring,
       s = pre ++ 46%N :: ext
       /\ forallb (fun d => negb (d =? 46)%N) ext = true.
Proof.
  induction s as [|c r IH]; [left; reflexivity|].
  destruct IH as [Hr | (pre & ext & -> & Hext)].
  - destruct (c =? 46)%N eqn:Ec.
    + right. exists [], r. apply N.eqb_eq in Ec. subst c. split; [reflexivity|exact Hr].
    + left. simpl. rewrite Ec. exact Hr.
  - right. exists (c :: pre), ext. split; [reflexivity|exact Hext].
Qed.

Lemma stripExtension_final (name : jsstring) :
  Batch.stripExtension name = Spec.stripFinalExtension name.
Proof.
  destruct (last_dot_split name) as [Hn | (pre & ext & -> & Hext)].
  - rewrite stripExtension_no_dot by exact Hn.
    unfold Spec.stripFinalExtension.
    replace (forallb (fun c => negb (Spec.isDot c)) name) with true
      by (symmetry; exact Hn).
    reflexivity.
  - rewrite stripExtension_last_dot, stripFinalExtension_last_dot
      by exact Hext.
    reflexivity.
Qed.

Lemma Forall_trimStart (P : N -> Prop) (s : jsstring) :
  Forall P s -> Forall P (trimStart s).
Proof.
  induction 1 as [|c r Hc Hr IH]; simpl; [constructor|].
  destruct (isWhiteSpace c); [exact IH | constructor; assumption].
Qed.

Lemma Forall_trim (P : N -> Prop) (s : jsstring) :
  Forall P s -> Forall P (trim s).
Proof.
  intros H. unfold trim.
  apply Forall_rev, Forall_trimStart, Forall_rev, Forall_trimStart, H.
Qed.

Lemma safeBaseName_safe (name : jsstring) :
  Forall (fun c => Batch.unsafeChar c = false) (Batch.safeBaseName name).
Proof.
  unfold Batch.safeBaseName.
  set (m := List.map _ _).
  assert (Hm : Forall (fun c => Batch.unsafeChar c = false) m).
  { subst m. apply List.Forall_forall. intros c Hc.
    apply in_map_iff in Hc as (d & <- & _).
    destruct (Batch.unsafeChar d) eqn:E; [reflexivity | exact E]. }
  apply (Forall_trim _ _) in Hm.
  destruct (trim m); [|exact Hm].
  repeat constructor.
Qed.

(** The claim as worded leaves the trimming out: for a name whose base
    starts with a blank the code's entry name is not the one obtained by
    stripping, replacing and falling back alone. *)
Lemma entry_name_untrimmed_differs :
  Batch.entryName (lit " a.png") <> Spec.entryName (lit " a.png").
Proof. vm_compute. discriminate. Qed.

(** C8 (amended). The entry name of a file is its name without the final
    extension, with each of the nine unsafe characters replaced by an
    underscore, with white space trimmed from both ends, replaced by the
    default name when nothing is left, and followed by [_mosaic.png]; the
    sanitised base is never empty and holds none of the nine characters; the
    name [a/b:c*.png] gives [a_b_c__mosaic.png]. *)
Theorem archive_entry_naming :
  (forall name : jsstring,
     Batch.entryName name = Spec.entryNameTrimmed name
     /\ Batch.safeBaseName name <> []
     /\ Forall (fun c => Batch.unsafeChar c = false) (Batch.safeBaseName name))
  /\ Batch.entryName (lit "a/b:c*.png") = lit "a_b_c__mosaic.png"
  /\ Batch.entryName (lit "photo.JPG") = lit "photo_mosaic.png".
Proof.
  split; [|split; vm_compute; reflexivity].
  intros name. split; [|split].
  - unfold Batch.entryName, Spec.entryNameTrimmed, Batch.safeBaseName,
      Spec.orDefault, Spec.replaceUnsafe.
    rewrite stripExtension_final. reflexivity.
  - unfold Batch.safeBaseName.
    destruct (trim _); [vm_compute|]; discriminate.
  - apply safeBaseName_safe.
Qed.

(** ** Detector initialisation *)

Lemma batch_init_memoized (net : network) (st : Batch.dom)
    (h : FaceLandmarker) :
  Batch.landmarker st = Some h ->
  Batch.initLandmarker net st = (Some h, st).
Proof.
  intros Hl. unfold Batch.initLandmarker, Eff.bind, Eff.get. simpl.
  rewrite Hl. reflexivity.
Qed.







(** ** Rounding *)

Lemma Qceiling_pos (w : Q) : 0 < w -> (1 <= Qceiling w)%Z.
Proof.
  intros Hw.
  assert (H : inject_Z 0 < inject_Z (Qceiling w)).
  { eapply Qlt_le_trans; [exact Hw | apply Qle_ceiling]. }
  rewrite <- Zlt_Qlt in H. lia.
Qed.

Lemma inject_Z_half_range (i n : Z) :
  (0 <= i < n)%Z ->
  0 <= inject_Z i /\ inject_Z i + 1 <= inject_Z n.
Proof.
  intros [H0 Hn]. split.
  - change 0 with (inject_Z 0). rewrite <- Zle_Qle. exact H0.
  - change 1 with (inject_Z 1). rewrite <- inject_Z_plus, <- Zle_Qle. lia.
Qed.

(** The source index of nearest-neighbour scaling from [s] to [n] cells. *)
Lemma nearest_index_range (i n s : Z) :
  (0 <= i < n)%Z -> (1 <= s)%Z ->
  (0 <= Qfloor ((inject_Z i + (1 # 2)) * inject_Z s / inject_Z n) < s)%Z.
Proof.
  intros Hi Hs.
  destruct (inject_Z_half_range i n Hi) as [HI HN].
  assert (HS : 1 <= inject_Z s).
  { change 1 with (inject_Z 1). rewrite <- Zle_Qle. exact Hs. }
  set (I := inject_Z i) in *. set (N := inject_Z n) in *.
  set (S := inject_Z s) in *.
  assert (HNpos : 0 < N) by lra.
  split.
  - change 0%Z with (Qfloor 0). apply Qfloor_resp_le.
    apply Qle_shift_div_l; [exact HNpos|]. nra.
  - rewrite Zlt_Qlt. fold S.
    eapply Qle_lt_trans; [apply Qfloor_le|].
    apply Qlt_shift_div_r; [exact HNpos|]. nra.
Qed.

Lemma floor_div_le (n : Z) (bs : Q) :
  (1 <= n)%Z -> 1 <= bs -> (Z.max 1 (Qfloor (inject_Z n / bs)) <= n)%Z.
Proof.
  intros Hn Hbs. apply Z.max_lub; [exact Hn|].
  rewrite Zle_Qle.
  eapply Qle_trans; [apply Qfloor_le|].
  assert (HN : 1 <= inject_Z n).
  { change 1 with (inject_Z 1). rewrite <- Zle_Qle. exact Hn. }
  apply Qle_shift_div_r; [lra|]. nra.
Qed.

(** ** The mosaic patch *)

Lemma in_bounds_true (r : raster) (i j : Z) :
  (0 <= i < r_width r)%Z -> (0 <= j < r_height r)%Z ->
  in_bounds r i j = true.
Proof.
  intros Hi Hj. unfold in_bounds.
  repeat (apply andb_true_iff; split);
    first [apply Z.leb_le | apply Z.ltb_lt]; lia.
Qed.

Lemma in_rect_origin (i j w h : Z) :
  (0 <= i < w)%Z -> (0 <= j < h)%Z ->
  in_rect 0 0 (inject_Z w) (inject_Z h) (centre i j) = true.
Proof.
  intros Hi Hj.
  destruct (inject_Z_half_range i w Hi) as [HI HW].
  destruct (inject_Z_half_range j h Hj) as [HJ HH].
  unfold in_rect, centre, px, py. simpl.
  repeat (apply andb_true_iff; split);
    first [apply Qle_bool_iff | apply Qlt_bool_iff]; lra.
Qed.

Lemma empty_raster_false (r : raster) :
  (1 <= r_width r)%Z -> (1 <= r_height r)%Z -> empty_raster r = false.
Proof.
  intros Hw Hh. unfold empty_raster.
  apply orb_false_iff. split; apply Z.leb_gt; lia.
Qed.

(** What one [drawImage] does, pixel by pixel. *)
Lemma drawImage_spec (smooth : filter) (c : ctx2d) (img : raster)
    (sx sy sw sh dx dy dw dh : Q) :
  empty_raster img = false ->
  exists c' : ctx2d,
    drawImage smooth c img sx sy sw sh dx dy dw dh = Some c'
    /\ r_width (canvas c') = r_width (canvas c)
    /\ r_height (canvas c') = r_height (canvas c)
    /\ cur_path c' = cur_path c
    /\ clip_region c' = clip_region c
    /\ imageSmoothingEnabled c' = imageSmoothingEnabled c
    /\ saved c' = saved c
    /\ forall i j : Z,
         pixel c' i j
         = if in_bounds (canvas c) i j && in_rect dx dy dw dh (centre i j)
              && in_clip c (centre i j)
           then match sample smooth (imageSmoothingEnabled c) img
                        (sx + (px (centre i j) - dx) * sw / dw)
                        (sy + (py (centre i j) - dy) * sh / dh)
                        (sw / dw) (sh / dh) with
                | Some col => col
                | None => pixel c i j
                end
           else pixel c i j.
Proof.
  intros Himg. unfold drawImage. rewrite Himg.
  eexists. repeat split; reflexivity.
Qed.

Lemma buildMosaicPatch_stages (smooth : filter) (src : raster)
    (x y w h bs : number) :
  empty_raster src = false -> 0 < w -> 0 < h ->
  let W' := Math_ceil w in
  let H' := Math_ceil h in
  let sw := Z.max 1 (Math_floor (inject_Z W' / bs)) in
  let sh := Z.max 1 (Math_floor (inject_Z H' / bs)) in
  exists (t1 t2 o : ctx2d),
    drawImage smooth (newCanvas W' H') src x y w h 0 0
      (inject_Z W') (inject_Z H') = Some t1
    /\ r_width (canvas t1) = W' /\ r_height (canvas t1) = H'
    /\ drawImage5 smooth (set_imageSmoothingEnabled false (newCanvas sw sh))
         (canvas t1) 0 0 (inject_Z sw) (inject_Z sh) = Some t2
    /\ r_width (canvas t2) = sw /\ r_height (canvas t2) = sh
    /\ drawImage smooth
         (set_imageSmoothingEnabled false (newCanvas W' H'))
         (canvas t2) 0 0 (inject_Z sw) (inject_Z sh) 0 0
         (inject_Z W') (inject_Z H') = Some o
    /\ r_width (canvas o) = W' /\ r_height (canvas o) = H'
    /\ buildMosaicPatch smooth src x y w h bs = Some (canvas o).
Proof.
  intros Hsrc Hw Hh W' H' sw sh.
  assert (HW : (1 <= W')%Z) by (apply Qceiling_pos; exact Hw).
  assert (HH : (1 <= H')%Z) by (apply Qceiling_pos; exact Hh).
  assert (Hsw : (1 <= sw)%Z) by apply Z.le_max_l.
  assert (Hsh : (1 <= sh)%Z) by apply Z.le_max_l.
  destruct (drawImage_spec smooth (newCanvas W' H') src x y w h 0 0
              (inject_Z W') (inject_Z H') Hsrc)
    as (t1 & E1 & W1 & H1 & _).
  simpl in W1, H1.
  assert (Ht1 : empty_raster (canvas t1) = false).
  { apply empty_raster_false; lia. }
  destruct (drawImage_spec smooth
              (set_imageSmoothingEnabled false (newCanvas sw sh)) (canvas t1)
              0 0 (inject_Z (r_width (canvas t1)))
              (inject_Z (r_height (canvas t1)))
              0 0 (inject_Z sw) (inject_Z sh) Ht1)
    as (t2 & E2 & W2 & H2 & _).
  simpl in W2, H2.
  assert (Ht2 : empty_raster (canvas t2) = false).
  { apply empty_raster_false; lia. }
  destruct (drawImage_spec smooth
              (set_imageSmoothingEnabled false (newCanvas W' H')) (canvas t2)
              0 0 (inject_Z sw) (inject_Z sh)
              0 0 (inject_Z W') (inject_Z H') Ht2)
    as (o & E3 & W3 & H3 & _).
  simpl in W3, H3.
  exists t1, t2, o.
  split; [exact E1|]. split; [exact W1|]. split; [exact H1|].
  split; [exact E2|]. split; [exact W2|]. split; [exact H2|].
  split; [exact E3|]. split; [exact W3|]. split; [exact H3|].
  unfold buildMosaicPatch.
  change (r_width (canvas (newCanvas (Math_ceil w) (Math_ceil h)))) with W'.
  change (r_height (canvas (newCanvas (Math_ceil w) (Math_ceil h)))) with H'.
  fold W' H'. rewrite E1.
  unfold mbind, option_bind. cbv beta iota zeta.
  rewrite W1, H1. fold sw sh.
  unfold drawImage5 in E2 |- *. rewrite W1, H1 in E2 |- *.
  rewrite E2.
  change (r_width (canvas (set_imageSmoothingEnabled false (newCanvas W' H'))))
    with W'.
  change (r_height (canvas (set_imageSmoothingEnabled false (newCanvas W' H'))))
    with H'.
  rewrite E3. reflexivity.
Qed.

(** The three stages of [buildMosaicPatch] and the blocks of its result. *)
Lemma buildMosaicPatch_blocks (smooth : filter) (src : raster)
    (x y w h bs : number) :
  empty_raster src = false -> 0 < w -> 0 < h -> 1 <= bs ->
  let W' := Math_ceil w in
  let H' := Math_ceil h in
  let sw := Z.max 1 (Math_floor (inject_Z W' / bs)) in
  let sh := Z.max 1 (Math_floor (inject_Z H' / bs)) in
  exists (t1 t2 : ctx2d) (out : raster),
    drawImage smooth (newCanvas W' H') src x y w h 0 0
      (inject_Z W') (inject_Z H') = Some t1
    /\ r_width (canvas t1) = W' /\ r_height (canvas t1) = H'
    /\ drawImage5 smooth (set_imageSmoothingEnabled false (newCanvas sw sh))
         (canvas t1) 0 0 (inject_Z sw) (inject_Z sh) = Some t2
    /\ r_width (canvas t2) = sw /\ r_height (canvas t2) = sh
    /\ (1 <= sw <= W')%Z /\ (1 <= sh <= H')%Z
    /\ buildMosaicPatch smooth src x y w h bs = Some out
    /\ r_width out = W' /\ r_height out = H'
    /\ forall i j : Z,
         (0 <= i < W')%Z -> (0 <= j < H')%Z ->
         let a := Qfloor ((inject_Z i + (1 # 2)) * inject_Z sw / inject_Z W') in
         let b := Qfloor ((inject_Z j + (1 # 2)) * inject_Z sh / inject_Z H') in
         (0 <= a < sw)%Z /\ (0 <= b < sh)%Z
         /\ r_pix out i j = pixel t2 a b.
Proof.
  intros Hsrc Hw Hh Hbs W' H' sw sh.
  assert (HW : (1 <= W')%Z) by (apply Qceiling_pos; exact Hw).
  assert (HH : (1 <= H')%Z) by (apply Qceiling_pos; exact Hh).
  assert (Hsw : (1 <= sw <= W')%Z).
  { split; [apply Z.le_max_l | apply floor_div_le; assumption]. }
  assert (Hsh : (1 <= sh <= H')%Z).
  { split; [apply Z.le_max_l | apply floor_div_le; assumption]. }
  destruct (buildMosaicPatch_stages smooth src x y w h bs Hsrc Hw Hh)
    as (t1 & t2 & o & E1 & W1 & H1 & E2 & W2 & H2 & E3 & W3 & H3 & Eb).
  fold W' H' in E1, W1, H1, E2, W2, H2, E3, W3, H3.
  fold sw sh in E2, W2, H2, E3.
  exists t1, t2, (canvas o).
  repeat (split; [assumption|]).
  intros i j Hi Hj a b.
  assert (Ha : (0 <= a < sw)%Z) by (apply nearest_index_range; lia).
  assert (Hb : (0 <= b < sh)%Z) by (apply nearest_index_range; lia).
  split; [exact Ha|]. split; [exact Hb|].
  assert (Ht2 : empty_raster (canvas t2) = false).
  { apply empty_raster_false; lia. }
  destruct (drawImage_spec smooth
              (set_imageSmoothingEnabled false (newCanvas W' H')) (canvas t2)
              0 0 (inject_Z sw) (inject_Z sh)
              0 0 (inject_Z W') (inject_Z H') Ht2)
    as (o' & E3' & _ & _ & _ & _ & _ & _ & Hpix).
  rewrite E3 in E3'. injection E3' as <-.
  change (r_pix (canvas o) i j) with (pixel o i j).
  rewrite Hpix.
  rewrite in_bounds_true by (simpl; lia).
  rewrite in_rect_origin by lia.
  change (in_clip (set_imageSmoothingEnabled false (newCanvas W' H'))
            (centre i j)) with true.
  change (imageSmoothingEnabled
            (set_imageSmoothingEnabled false (newCanvas W' H'))) with false.
  unfold sample, nearest. cbv beta iota zeta.
  assert (Ea : Qfloor (0 + (px (centre i j) - 0) * inject_Z sw / inject_Z W')
               = a).
  { unfold a. apply Qfloor_comp. unfold centre, px, Qdiv. simpl fst. ring. }
  assert (Eb' : Qfloor (0 + (py (centre i j) - 0) * inject_Z sh / inject_Z H')
                = b).
  { unfold b. apply Qfloor_comp. unfold centre, py, Qdiv. simpl snd. ring. }
  rewrite Ea, Eb'.
  rewrite in_bounds_true by lia.
  reflexivity.
Qed.


(** ** The clip *)

Lemma edge_wn_self (c a : point) : edge_wn c a a = 0%Z.
Proof.
  unfold edge_wn, Qlt_bool.
  destruct (Qle_bool (py a) (py c)); reflexivity.
Qed.

Lemma fold_lineTo (rest : list point) :
  forall (cv : raster) (s : subpath) (r : path) (cl : list path) (sm : bool)
         (sv : list (list path * bool)),
    fold_left lineTo rest (Ctx cv (s :: r) cl sm sv)
    = Ctx cv ((rev rest ++ s) :: r) cl sm sv.
Proof.
  induction rest as [|p rest IH]; intros cv s r cl sm sv; simpl.
  - reflexivity.
  - unfold lineTo at 2. simpl. unfold set_path. simpl.
    rewrite IH, <- app_assoc. reflexivity.
Qed.

(** The drawing state once [save], [beginPath], [moveTo], the [lineTo]s,
    [closePath], [clip] and the smoothing switch have run. *)
Lemma clip_state (c : Canvas.ctx2d) (p0 : point) (rest : list point) :
  set_imageSmoothingEnabled false
    (clip (closePath (fold_left lineTo rest (moveTo (beginPath (save c)) p0))))
  = Ctx (canvas c) [[p0]; rev rest ++ [p0]]
      ([[p0]; rev rest ++ [p0]] :: clip_region c) false
      ((clip_region c, imageSmoothingEnabled c) :: saved c).
Proof.
  unfold save, beginPath, moveTo, set_path. simpl.
  rewrite fold_lineTo.
  unfold closePath. simpl cur_path. cbv iota beta.
  rewrite rev_app_distr, rev_involutive. simpl.
  reflexivity.
Qed.

Lemma in_path_closed_polygon (p0 : point) (rest : list point) (i j : Z) :
  in_path [[p0]; rev rest ++ [p0]] (centre i j) = inside (p0 :: rest) i j.
Proof.
  unfold in_path, inside, path_winding. simpl fold_right.
  rewrite rev_app_distr, rev_involutive. simpl rev. simpl app.
  change (winding (centre i j) [p0]) with (edge_wn (centre i j) p0 p0).
  rewrite edge_wn_self. rewrite Z.add_0_l, Z.add_0_r. reflexivity.
Qed.

(** What the clipped paste does, pixel by pixel. *)
Lemma pasteClipped_spec (smooth : filter) (c : Canvas.ctx2d) (p0 : point)
    (rest : list point) (patch : raster) (x y : number) :
  empty_raster patch = false ->
  exists c' : Canvas.ctx2d,
    pasteClipped smooth c p0 rest patch x y = Some c'
    /\ r_width (canvas c') = r_width (canvas c)
    /\ r_height (canvas c') = r_height (canvas c)
    /\ cur_path c' = [[p0]; rev rest ++ [p0]]
    /\ clip_region c' = clip_region c
    /\ imageSmoothingEnabled c' = imageSmoothingEnabled c
    /\ saved c' = saved c
    /\ forall i j : Z,
         pixel c' i j
         = if in_bounds (canvas c) i j
              && in_rect x y (inject_Z (r_width patch))
                   (inject_Z (r_height patch)) (centre i j)
              && (inside (p0 :: rest) i j && in_clip c (centre i j))
           then match nearest patch
                        (0 + (px (centre i j) - x)
                             * inject_Z (r_width patch)
                             / inject_Z (r_width patch))
                        (0 + (py (centre i j) - y)
                             * inject_Z (r_height patch)
                             / inject_Z (r_height patch)) with
                | Some col => col
                | None => pixel c i j
                end
           else pixel c i j.
Proof.
  intros Hpatch. unfold pasteClipped. cbv zeta.
  rewrite clip_state. unfold drawImage3, drawImage5.
  match goal with
  | |- context [drawImage smooth ?st patch ?a ?b ?cc ?d ?e ?f ?g ?hh] =>
      destruct (drawImage_spec smooth st patch a b cc d e f g hh Hpatch)
        as (c1 & E & W1 & H1 & P1 & C1 & S1 & V1 & Hpix)
  end.
  rewrite E. unfold mbind, option_bind. cbv beta iota.
  simpl in W1, H1, P1, C1, S1, V1.
  unfold restore. rewrite V1.
  eexists. split; [reflexivity|].
  cbn [canvas cur_path clip_region imageSmoothingEnabled saved].
  repeat (split; [assumption || reflexivity|]).
  intros i j. change (pixel (Ctx (canvas c1) ?a ?b ?d ?e) i j)
    with (pixel c1 i j).
  rewrite Hpix.
  unfold in_clip at 1. simpl clip_region. simpl forallb.
  rewrite in_path_closed_polygon.
  reflexivity.
Qed.

Lemma buildMosaicPatch_some (smooth : filter) (src : raster)
    (x y w h bs : number) :
  empty_raster src = false -> 1 <= w -> 1 <= h ->
  exists patch : raster,
    buildMosaicPatch smooth src x y w h bs = Some patch
    /\ r_width patch = Math_ceil w /\ r_height patch = Math_ceil h
    /\ empty_raster patch = false.
Proof.
  intros Hsrc Hw Hh.
  assert (Hw' : 0 < w) by lra. assert (Hh' : 0 < h) by lra.
  destruct (buildMosaicPatch_stages smooth src x y w h bs Hsrc Hw' Hh')
    as (t1 & t2 & o & _ & _ & _ & _ & _ & _ & _ & W3 & H3 & Eb).
  exists (canvas o). split; [exact Eb|]. split; [exact W3|].
  split; [exact H3|].
  apply empty_raster_false.
  - rewrite W3. apply Qceiling_pos, Hw'.
  - rewrite H3. apply Qceiling_pos, Hh'.
Qed.

Lemma batch_region_size (b : number * number * number * number)
    (W H x y cw ch : number) :
  Batch.region b W H = (x, y, cw, ch) -> 1 <= cw /\ 1 <= ch.
Proof.
  destruct b as [[[minX minY] maxX] maxY]. unfold Batch.region.
  intros E. injection E as <- <- <- <-. split; apply clamp_lower.
Qed.

Lemma single_region_size (b : number * number * number * number)
    (W H x y cw ch : number) :
  Single.region b W H = (x, y, cw, ch) -> 1 <= cw /\ 1 <= ch.
Proof.
  destruct b as [[[minX minY] maxX] maxY]. unfold Single.region.
  intros E. injection E as <- <- <- <-. split; apply clamp_lower.
Qed.

(** The batch compositor on a face with a contour: one patch, rendered at
    the block size it was given, pasted through the polygon of the raw
    points. *)
Lemma batch_mosaicFaceOval_eq (smooth : filter) (c : Canvas.ctx2d) (f : face)
    (W H bs : number) (p0 : point) (rest : list point)
    (x y cw ch : number) :
  contourPoints f W H = p0 :: rest ->
  (3 <= length (p0 :: rest))%nat ->
  Batch.region (bounds p0 rest) W H = (x, y, cw, ch) ->
  Batch.mosaicFaceOval smooth c f W H bs
  = buildMosaicPatch smooth (canvas c) x y cw ch bs
    ≫= fun mosaicked => pasteClipped smooth c p0 rest mosaicked x y.
Proof.
  intros Epts Hlen Ereg. unfold Batch.mosaicFaceOval. cbv zeta.
  rewrite Epts.
  destruct (Nat.ltb_spec (length (p0 :: rest)) 3); [lia|].
  rewrite Ereg. reflexivity.
Qed.

(** The single-image compositor on a face with a contour: one patch,
    rendered at the block size derived from the bounds, pasted through the
    polygon of the expanded points. *)
Lemma single_mosaicFaceOval_eq (smooth : filter) (c : Canvas.ctx2d)
    (f : face) (W H : number) (p0 : point) (rest : list point)
    (x y cw ch : number) :
  Single.expandPoints (contourPoints f W H) = p0 :: rest ->
  (3 <= length (p0 :: rest))%nat ->
  Single.region (bounds p0 rest) W H = (x, y, cw, ch) ->
  Single.mosaicFaceOval smooth c f W H
  = buildMosaicPatch smooth (canvas c) x y cw ch
      (Single.effectiveBlock (bounds p0 rest))
    ≫= fun mosaicked => pasteClipped smooth c p0 rest mosaicked x y.
Proof.
  intros Epts Hlen Ereg. unfold Single.mosaicFaceOval. cbv zeta.
  assert (El : length (contourPoints f W H) = length (p0 :: rest)).
  { rewrite <- Epts. unfold Single.expandPoints. cbv zeta.
    symmetry. apply length_map. }
  destruct (Nat.ltb_spec (length (contourPoints f W H)) 3); [lia|].
  rewrite Epts, Ereg. reflexivity.
Qed.

Lemma paste_outside (smooth : filter) (c : Canvas.ctx2d) (src : raster)
    (p0 : point) (rest : list point) (x y cw ch bs : number) :
  empty_raster src = false -> 1 <= cw -> 1 <= ch ->
  exists c' : Canvas.ctx2d,
    (buildMosaicPatch smooth src x y cw ch bs
     ≫= fun mosaicked => pasteClipped smooth c p0 rest mosaicked x y)
    = Some c'
    /\ r_width (canvas c') = r_width (canvas c)
    /\ r_height (canvas c') = r_height (canvas c)
    /\ forall i j : Z,
         inside (p0 :: rest) i j = false -> pixel c' i j = pixel c i j.
Proof.
  intros Hsrc Hcw Hch.
  destruct (buildMosaicPatch_some smooth src x y cw ch bs Hsrc Hcw Hch)
    as (patch & Ep & _ & _ & Hne).
  rewrite Ep. unfold mbind, option_bind. cbv beta iota.
  destruct (pasteClipped_spec smooth c p0 rest patch x y Hne)
    as (c' & E & W1 & H1 & _ & _ & _ & _ & Hpix).
  exists c'. split; [exact E|]. split; [exact W1|]. split; [exact H1|].
  intros i j Hout. rewrite Hpix, Hout.
  rewrite andb_false_l, andb_false_r. reflexivity.
Qed.


(** ** Block size *)

Lemma ignores_ret {A : Type} (a : A) : ignores_slider (Eff.ret a).
Proof. intros v st. reflexivity. Qed.

Lemma ignores_lift {A : Type} (o : option A) : ignores_slider (Eff.lift o).
Proof. intros v st. reflexivity. Qed.

Lemma ignores_set_status (t : Single.status_text) :
  ignores_slider (Eff.modify (Single.set_status t)).
Proof. intros v st. reflexivity. Qed.

Lemma ignores_set_ctx (c : Canvas.ctx2d) :
  ignores_slider (Eff.modify (Single.set_ctx c)).
Proof. intros v st. reflexivity. Qed.

Lemma ignores_bind {A B : Type} (m : Eff.M Single.dom A)
    (k : A -> Eff.M Single.dom B) :
  ignores_slider m -> (forall a, ignores_slider (k a)) ->
  ignores_slider (Eff.bind m k).
Proof.
  intros Hm Hk v st. unfold Eff.bind. rewrite Hm.
  destruct (m st) as [[a|] st']; simpl; [apply Hk | reflexivity].
Qed.

Lemma ignores_try_catch {A : Type} (body handler : Eff.M Single.dom A) :
  ignores_slider body -> ignores_slider handler ->
  ignores_slider (Eff.try_catch body handler).
Proof.
  intros Hb Hh v st. unfold Eff.try_catch. rewrite Hb.
  destruct (body st) as [[a|] st']; simpl; [reflexivity | apply Hh].
Qed.

Lemma ignores_initLandmarker (net : network) :
  ignores_slider (Single.initLandmarker net).
Proof.
  intros v st. unfold Single.initLandmarker, Eff.bind, Eff.get, Eff.modify,
    Eff.lift, Eff.ret. simpl.
  destruct (Single.landmarker st); [reflexivity|]. simpl.
  destruct (forVisionTasks net) as [vis|]; [|reflexivity].
  destruct (createFromOptions net vis 10); reflexivity.
Qed.

Lemma ignores_eachFace (smooth : filter) (faces : list face) (W H : number) :
  ignores_slider (Single.eachFace smooth faces W H).
Proof.
  induction faces as [|f more IH]; intros v st; simpl; [reflexivity|].
  unfold Eff.bind, Eff.get, Eff.lift, Eff.modify. simpl.
  destruct (Single.mosaicFaceOval smooth (Single.ctx st) f W H) as [c|];
    [|reflexivity].
  apply (IH v (Single.set_ctx c st)).
Qed.

Lemma ignores_processFile (smooth : filter) (detect : detector)
    (net : network) (f : File) :
  ignores_slider (Single.processFile smooth detect net f).
Proof.
  unfold Single.processFile.
  apply ignores_try_catch; [|apply ignores_set_status].
  apply ignores_bind; [apply ignores_initLandmarker|]. intros lm.
  apply ignores_bind; [apply ignores_set_status|]. intros _.
  apply ignores_bind; [apply ignores_lift|]. intros img.
  apply ignores_bind; [apply ignores_set_ctx|]. intros _.
  apply ignores_bind; [apply ignores_lift|]. intros c.
  apply ignores_bind; [apply ignores_set_ctx|]. intros _.
  apply ignores_bind; [apply ignores_set_status|]. intros _.
  apply ignores_bind; [apply ignores_lift|]. intros faces.
  destruct faces as [|f0 more]; [apply ignores_set_status|].
  apply ignores_bind; [apply ignores_eachFace|]. intros _.
  apply ignores_set_status.
Qed.

Lemma batch_eachFace_composes (smooth : filter) (W H s : number)
    (faces : list face) :
  forall (c c' : Canvas.ctx2d) (st st' : Batch.dom),
    Batch.eachFace smooth faces c W H s st = (Some c', st') ->
    composeAll (fun c f => Batch.mosaicFaceOval smooth c f W H s) faces c
    = Some c'.
Proof.
  induction faces as [|f more IH]; intros c c' st st'; simpl.
  - unfold Eff.ret. intros [= <- _]. reflexivity.
  - unfold Eff.bind, Eff.lift, Eff.get, Eff.modify.
    destruct (Batch.mosaicFaceOval smooth c f W H s) as [c1|];
      [|discriminate].
    destruct (Batch.mosaicFaceOval smooth (Batch.preview st) f W H s)
      as [p1|]; [|discriminate].
    simpl. apply IH.
Qed.

Lemma batch_init_keeps_strength (net : network) (st st' : Batch.dom)
    (r : option FaceLandmarker) :
  Batch.initLandmarker net st = (r, st') ->
  Batch.strength st' = Batch.strength st.
Proof.
  unfold Batch.initLandmarker, Eff.bind, Eff.get, Eff.modify, Eff.lift,
    Eff.ret. simpl.
  destruct (Batch.landmarker st); [intros [= _ <-]; reflexivity|]. simpl.
  destruct (forVisionTasks net) as [vis|]; [|intros [= _ <-]; reflexivity].
  destruct (createFromOptions net vis 20); intros [= _ <-]; reflexivity.
Qed.

(** What a successful [processOneFile] has done: decoded the file, drawn it,
    asked the detector, and composited every face at the slider's value. *)
Lemma batch_processOneFile_result (smooth : filter) (detect : detector)
    (net : network) (file : File) (index total : nat)
    (st st' : Batch.dom) (name : jsstring) (blob : raster) :
  Batch.processOneFile smooth detect net file index total st
  = (Some (name, blob), st') ->
  exists (lm : FaceLandmarker) (img : raster) (faces : list face)
         (c0 c' : Canvas.ctx2d),
    f_bitmap file = Some img
    /\ detect lm img = Some faces
    /\ drawImage3 smooth
         (set_imageSmoothingEnabled true
            (newCanvas (r_width img) (r_height img))) img 0 0 = Some c0
    /\ composeAll
         (fun c f =>
            Batch.mosaicFaceOval smooth c f (inject_Z (r_width img))
              (inject_Z (r_height img)) (Batch.strength st))
         faces c0 = Some c'
    /\ name = Batch.entryName (f_name file)
    /\ blob = canvas c'.
Proof.
  unfold Batch.processOneFile.
  unfold Eff.bind at 1.
  destruct (Batch.initLandmarker net st) as [[lm|] st1] eqn:Einit;
    [|discriminate].
  pose proof (batch_init_keeps_strength _ _ _ _ Einit) as Hs.
  unfold Eff.bind, Eff.get, Eff.modify, Eff.lift. simpl.

  destruct (f_bitmap file) as [img|]; [|discriminate].
  destruct (drawImage3 smooth _ img 0 0) as [c0|] eqn:Ec0; [|discriminate].
  destruct (detect lm img) as [faces|] eqn:Ed; [|discriminate].
  destruct (drawImage3 smooth (clearRect _ _ _ _ _) img 0 0) as [pc|];
    [|discriminate].
  destruct faces as [|f0 more].
  - unfold canvasToPngBlob.
    destruct (empty_raster (canvas c0)); unfold Eff.throw, Eff.ret;
      [discriminate|].
    intros [= <- <- _].
    exists lm, img, [], c0, c0. repeat split; assumption || reflexivity.
  - cbv beta.
    match goal with
    | |- context [Batch.eachFace smooth ?fs ?c ?w ?h ?s ?stt] =>
        destruct (Batch.eachFace smooth fs c w h s stt) as [[c'|] st2] eqn:Ee
    end; [|discriminate].
    unfold canvasToPngBlob.
    destruct (empty_raster (canvas c')); unfold Eff.throw, Eff.ret;
      [discriminate|].
    intros [= <- <- _].
    apply batch_eachFace_composes in Ee. rewrite Hs in Ee.
    exists lm, img, (f0 :: more), c0, c'.
    repeat split; assumption || reflexivity.
Qed.

(** C5. In the single-image tool the patch of a face is rendered at the
    block size [clamp(w / 12, 12, 32)], [w] being the width of the bounding
    box of the expanded contour, and a run of [processFile] neither reads nor
    writes the slider.  In the batch tool the patch is rendered at the block
    size handed to the compositor, and the output of [processOneFile] is the
    decoded image with every detected face composited at the slider's
    value. *)
Theorem block_size_policy (smooth : filter) (detect : detector)
    (net : network) :
  (forall (c : Canvas.ctx2d) (f : face) (W H : number) (p0 : point)
          (rest : list point) (x y cw ch minX minY maxX maxY : number),
     Single.expandPoints (contourPoints f W H) = p0 :: rest ->
     (3 <= length (p0 :: rest))%nat ->
     bounds p0 rest = (minX, minY, maxX, maxY) ->
     Single.region (bounds p0 rest) W H = (x, y, cw, ch) ->
     Single.mosaicFaceOval smooth c f W H
     = buildMosaicPatch smooth (canvas c) x y cw ch
         (clamp ((maxX - minX) / 12) 12 32)
       ≫= fun mosaicked => pasteClipped smooth c p0 rest mosaicked x y)
  /\ (forall file : File,
        ignores_slider (Single.processFile smooth detect net file))
  /\ (forall (c : Canvas.ctx2d) (f : face) (W H s : number) (p0 : point)
             (rest : list point) (x y cw ch : number),
        contourPoints f W H = p0 :: rest ->
        (3 <= length (p0 :: rest))%nat ->
        Batch.region (bounds p0 rest) W H = (x, y, cw, ch) ->
        Batch.mosaicFaceOval smooth c f W H s
        = buildMosaicPatch smooth (canvas c) x y cw ch s
          ≫= fun mosaicked => pasteClipped smooth c p0 rest mosaicked x y)
  /\ (forall (file : File) (index total : nat) (st st' : Batch.dom)
             (name : jsstring) (blob : raster),
        Batch.processOneFile smooth detect net file index total st
        = (Some (name, blob), st') ->
        exists (lm : FaceLandmarker) (img : raster) (faces : list face)
               (c0 c' : Canvas.ctx2d),
          f_bitmap file = Some img
          /\ detect lm img = Some faces
          /\ drawImage3 smooth
               (set_imageSmoothingEnabled true
                  (newCanvas (r_width img) (r_height img))) img 0 0 = Some c0
          /\ composeAll
               (fun c f =>
                  Batch.mosaicFaceOval smooth c f (inject_Z (r_width img))
                    (inject_Z (r_height img)) (Batch.strength st))
               faces c0 = Some c'
          /\ blob = canvas c').
Proof.
  split; [|split; [|split]].
  - intros c f W H p0 rest x y cw ch minX minY maxX maxY Epts Hlen Eb Er.
    rewrite (single_mosaicFaceOval_eq smooth c f W H p0 rest x y cw ch
               Epts Hlen Er).
    rewrite Eb. reflexivity.
  - intros file. apply ignores_processFile.
  - intros c f W H s p0 rest x y cw ch Epts Hlen Er.
    apply batch_mosaicFaceOval_eq; assumption.
  - intros file index total st st' name blob E.
    destruct (batch_processOneFile_result _ _ _ _ _ _ _ _ _ _ E)
      as (lm & img & faces & c0 & c' & H1 & H2 & H3 & H4 & _ & H6).
    exists lm, img, faces, c0, c'. repeat split; assumption.
Qed.

(** ** Pixels inside the clip *)

Lemma floor_range (q : Q) (n : Z) :
  (0 <= Qfloor q < n)%Z -> 0 <= q /\ q < inject_Z n.
Proof.
  intros [H0 Hn]. split.
  - eapply Qle_trans; [|apply Qfloor_le].
    change 0 with (inject_Z 0). rewrite <- Zle_Qle. exact H0.
  - eapply Qlt_le_trans; [apply Qlt_floor|].
    rewrite <- Zle_Qle. lia.
Qed.

(** A pixel of the surface, of the polygon and of the patch takes the colour
    of one cell of the small buffer: the cell under the centre of the patch
    pixel that lies under the centre of the surface pixel. *)
Lemma paste_blocks (smooth : filter) (c : Canvas.ctx2d) (src : raster)
    (p0 : point) (rest : list point) (x y cw ch bs : number) :
  empty_raster src = false -> 1 <= cw -> 1 <= ch -> 1 <= bs ->
  let W' := Math_ceil cw in
  let H' := Math_ceil ch in
  let sw := Z.max 1 (Math_floor (inject_Z W' / bs)) in
  let sh := Z.max 1 (Math_floor (inject_Z H' / bs)) in
  exists (t2 c' : Canvas.ctx2d),
    (buildMosaicPatch smooth src x y cw ch bs
     ≫= fun mosaicked => pasteClipped smooth c p0 rest mosaicked x y)
    = Some c'
    /\ forall i j i' j' : Z,
         in_bounds (canvas c) i j = true ->
         inside (p0 :: rest) i j = true ->
         in_clip c (centre i j) = true ->
         i' = Qfloor (px (centre i j) - x) ->
         j' = Qfloor (py (centre i j) - y) ->
         (0 <= i' < W')%Z -> (0 <= j' < H')%Z ->
         pixel c' i j
         = pixel t2
             (Qfloor ((inject_Z i' + (1 # 2)) * inject_Z sw / inject_Z W'))
             (Qfloor ((inject_Z j' + (1 # 2)) * inject_Z sh / inject_Z H')).
Proof.
  intros Hsrc Hcw Hch Hbs W' H' sw sh.
  assert (Hcw' : 0 < cw) by lra. assert (Hch' : 0 < ch) by lra.
  destruct (buildMosaicPatch_blocks smooth src x y cw ch bs Hsrc Hcw' Hch' Hbs)
    as (t1 & t2 & out & _ & _ & _ & _ & W2 & H2 & Hsw & Hsh & Eb & Wo & Ho
        & Hblk).
  fold W' H' in Wo, Ho, Hblk, Hsw, Hsh. fold sw sh in Hblk, Hsw, Hsh.
  assert (Hne : empty_raster out = false).
  { apply empty_raster_false; lia. }
  rewrite Eb. unfold mbind, option_bind. cbv beta iota.
  destruct (pasteClipped_spec smooth c p0 rest out x y Hne)
    as (c' & E & _ & _ & _ & _ & _ & _ & Hpix).
  exists t2, c'. split; [exact E|].
  intros i j i' j' Hin Hins Hclip Ei Ej Hi Hj.
  rewrite Hpix, Hin, Hins, Hclip, Wo, Ho.
  assert (HWne : ~ inject_Z W' == 0).
  { intros Hz. assert (Hp : inject_Z 0 < inject_Z W')
      by (rewrite <- Zlt_Qlt; lia).
    change (inject_Z 0) with 0 in Hp. lra. }
  assert (HHne : ~ inject_Z H' == 0).
  { intros Hz. assert (Hp : inject_Z 0 < inject_Z H')
      by (rewrite <- Zlt_Qlt; lia).
    change (inject_Z 0) with 0 in Hp. lra. }
  assert (Eu : Qfloor (0 + (px (centre i j) - x) * inject_Z W' / inject_Z W')
               = i').
  { rewrite Ei. apply Qfloor_comp. rewrite Qplus_0_l.
    apply Qdiv_mult_l, HWne. }
  assert (Ev : Qfloor (0 + (py (centre i j) - y) * inject_Z H' / inject_Z H')
               = j').
  { rewrite Ej. apply Qfloor_comp. rewrite Qplus_0_l.
    apply Qdiv_mult_l, HHne. }
  rewrite Ei in Hi. rewrite Ej in Hj.
  destruct (floor_range _ _ Hi) as [Hx0 Hx1].
  destruct (floor_range _ _ Hj) as [Hy0 Hy1].
  rewrite <- Ei in Hi. rewrite <- Ej in Hj.
  assert (Hrect : in_rect x y (inject_Z W') (inject_Z H') (centre i j) = true).
  { unfold in_rect.
    repeat (apply andb_true_iff; split);
      first [apply Qle_bool_iff | apply Qlt_bool_iff]; lra. }
  rewrite Hrect. simpl andb. cbv iota.
  unfold nearest. cbv zeta. rewrite Eu, Ev.
  rewrite in_bounds_true by lia.
  destruct (Hblk i' j' Hi Hj) as (_ & _ & Hp). exact Hp.
Qed.

(** ** Batch outputs *)

Lemma floor_centre (i : Z) (u : Q) :
  u == inject_Z i + (1 # 2) -> Qfloor u = i.
Proof.
  intros Hu. rewrite (Qfloor_comp _ _ Hu).
  apply Z.le_antisymm.
  - apply Z.lt_succ_r. rewrite Zlt_Qlt.
    eapply Qle_lt_trans; [apply Qfloor_le|].
    unfold Z.succ. rewrite inject_Z_plus. change (inject_Z 1) with 1. lra.
  - rewrite <- (Qfloor_Z i) at 1.
    apply Qfloor_resp_le. lra.
Qed.

Lemma nearest_filter_exact : exact_at_unit_scale nearest_filter.
Proof.
  intros img i j u v kx ky Hin Hu Hv _ _.
  unfold nearest_filter, nearest.
  rewrite (floor_centre i u Hu), (floor_centre j v Hv), Hin. reflexivity.
Qed.

Lemma empty_raster_dims (r : raster) :
  empty_raster r = false -> (1 <= r_width r)%Z /\ (1 <= r_height r)%Z.
Proof.
  unfold empty_raster. intros H. apply orb_false_iff in H as [Hw Hh].
  apply Z.leb_gt in Hw. apply Z.leb_gt in Hh. lia.
Qed.

(** An image drawn at the origin of a fresh canvas of its own size. *)
Lemma drawImage3_copy (smooth : filter) (img : raster) (c : Canvas.ctx2d) :
  exact_at_unit_scale smooth ->
  empty_raster img = false ->
  r_width (canvas c) = r_width img -> r_height (canvas c) = r_height img ->
  clip_region c = [] -> imageSmoothingEnabled c = true ->
  exists c' : Canvas.ctx2d,
    drawImage3 smooth c img 0 0 = Some c'
    /\ r_width (canvas c') = r_width img
    /\ r_height (canvas c') = r_height img
    /\ forall i j : Z,
         in_bounds img i j = true -> pixel c' i j = r_pix img i j.
Proof.
  intros Hex Himg Hw Hh Hclip Hsm.
  destruct (empty_raster_dims img Himg) as [HW HH].
  unfold drawImage3, drawImage5.
  match goal with
  | |- context [drawImage smooth c img ?a ?b ?cc ?d ?e ?f ?g ?hh] =>
      destruct (drawImage_spec smooth c img a b cc d e f g hh Himg)
        as (c' & E & W1 & H1 & _ & _ & _ & _ & Hpix)
  end.
  exists c'. split; [exact E|]. split; [congruence|]. split; [congruence|].
  intros i j Hin. rewrite Hpix.
  assert (Hin' : in_bounds (canvas c) i j = true).
  { unfold in_bounds in *. rewrite Hw, Hh. exact Hin. }
  assert (Hrange : (0 <= i < r_width img)%Z /\ (0 <= j < r_height img)%Z).
  { unfold in_bounds in Hin.
    repeat (apply andb_true_iff in Hin as [Hin ?]).
    repeat match goal with
           | H : (_ <=? _)%Z = true |- _ => apply Z.leb_le in H
           | H : (_ <? _)%Z = true |- _ => apply Z.ltb_lt in H
           end. lia. }
  destruct Hrange as [Hi Hj].
  rewrite Hin', in_rect_origin by assumption.
  unfold in_clip. rewrite Hclip. simpl forallb. simpl andb. cbv iota.
  rewrite Hsm. unfold sample.
  assert (HWne : ~ inject_Z (r_width img) == 0).
  { intros Hz. assert (Hp : inject_Z 0 < inject_Z (r_width img))
      by (rewrite <- Zlt_Qlt; lia).
    change (inject_Z 0) with 0 in Hp. lra. }
  assert (HHne : ~ inject_Z (r_height img) == 0).
  { intros Hz. assert (Hp : inject_Z 0 < inject_Z (r_height img))
      by (rewrite <- Zlt_Qlt; lia).
    change (inject_Z 0) with 0 in Hp. lra. }
  rewrite (Hex img i j); [reflexivity | exact Hin | | | |].
  - rewrite Qplus_0_l. unfold Qminus. rewrite Qdiv_mult_l by exact HWne.
    unfold centre, px. simpl fst. ring.
  - rewrite Qplus_0_l. unfold Qminus. rewrite Qdiv_mult_l by exact HHne.
    unfold centre, py. simpl snd. ring.
  - apply Qmult_inv_r, HWne.
  - apply Qmult_inv_r, HHne.
Qed.

(** The file of an image without faces is the decoded image, pixel for
    pixel, under its entry name. *)
Lemma batch_zero_face_passthrough (smooth : filter) (detect : detector)
    (net : network) (file : File) (index total : nat) (st : Batch.dom)
    (lm : FaceLandmarker) (img : raster) :
  exact_at_unit_scale smooth ->
  Batch.landmarker st = Some lm ->
  f_bitmap file = Some img ->
  empty_raster img = false ->
  detect lm img = Some [] ->
  exists (blob : raster) (st' : Batch.dom),
    Batch.processOneFile smooth detect net file index total st
    = (Some (Batch.entryName (f_name file), blob), st')
    /\ r_width blob = r_width img /\ r_height blob = r_height img
    /\ forall i j : Z, in_bounds img i j = true -> r_pix blob i j = r_pix img i j.
Proof.
  intros Hex Hlm Hbit Himg Hdet.
  destruct (empty_raster_dims img Himg) as [HW HH].
  destruct (drawImage3_copy smooth img
              (set_imageSmoothingEnabled true
                 (newCanvas (r_width img) (r_height img)))
              Hex Himg eq_refl eq_refl eq_refl eq_refl)
    as (c0 & E0 & W0 & H0 & Hpix).
  destruct (drawImage3_copy smooth img
              (clearRect
                 (set_imageSmoothingEnabled true
                    (newCanvas (r_width img) (r_height img)))
                 0 0 (inject_Z (r_width img)) (inject_Z (r_height img)))
              Hex Himg eq_refl eq_refl eq_refl eq_refl)
    as (pc & Ep & _).
  unfold Batch.processOneFile.
  unfold Eff.bind at 1. rewrite (batch_init_memoized net st lm Hlm).
  unfold Eff.bind, Eff.get, Eff.modify, Eff.lift. simpl.
  rewrite Hbit, E0, Hdet, Ep.
  unfold canvasToPngBlob.
  rewrite (empty_raster_false (canvas c0)) by lia.
  unfold Eff.ret.
  eexists _, _. split; [reflexivity|].
  split; [exact W0|]. split; [exact H0|]. exact Hpix.
Qed.

Lemma keeps_bind {A B : Type} (m : Eff.M Batch.dom A)
    (k : A -> Eff.M Batch.dom B) :
  keeps_archive m -> (forall a, keeps_archive (k a)) ->
  keeps_archive (Eff.bind m k).
Proof.
  intros Hm Hk st. unfold Eff.bind. specialize (Hm st).
  destruct (m st) as [[a|] st1]; simpl in *; [|exact Hm].
  rewrite (Hk a st1). exact Hm.
Qed.

Lemma keeps_pure {A : Type} (o : option A) :
  keeps_archive (Eff.lift o).
Proof. intros st. reflexivity. Qed.

Lemma keeps_ret {A : Type} (a : A) : keeps_archive (Eff.ret a).
Proof. intros st. reflexivity. Qed.

Lemma keeps_set_status (t : Batch.status_text) :
  keeps_archive (Eff.modify (Batch.set_status t)).
Proof. intros st. reflexivity. Qed.

Lemma keeps_set_preview (c : Canvas.ctx2d) :
  keeps_archive (Eff.modify (Batch.set_preview c)).
Proof. intros st. reflexivity. Qed.

Lemma keeps_initLandmarker (net : network) :
  keeps_archive (Batch.initLandmarker net).
Proof.
  intros st. unfold Batch.initLandmarker, Eff.bind, Eff.get, Eff.modify,
    Eff.lift, Eff.ret. simpl.
  destruct (Batch.landmarker st); [reflexivity|]. simpl.
  destruct (forVisionTasks net) as [vis|]; [|reflexivity].
  destruct (createFromOptions net vis 20); reflexivity.
Qed.

Lemma keeps_eachFace (smooth : filter) (faces : list face)
    (W H s : number) :
  forall c : Canvas.ctx2d,
    keeps_archive (Batch.eachFace smooth faces c W H s).
Proof.
  induction faces as [|f more IH]; intros c st; simpl; [reflexivity|].
  unfold Eff.bind, Eff.get, Eff.lift, Eff.modify.
  destruct (Batch.mosaicFaceOval smooth c f W H s) as [c1|]; [|reflexivity].
  destruct (Batch.mosaicFaceOval smooth (Batch.preview st) f W H s)
    as [p1|]; [|reflexivity].
  simpl. rewrite IH. reflexivity.
Qed.

Lemma keeps_toBlob (c : raster) :
  keeps_archive (canvasToPngBlob c).
Proof. intros st. unfold canvasToPngBlob. destruct (empty_raster c); reflexivity. Qed.

Lemma keeps_get : keeps_archive (@Eff.get Batch.dom).
Proof. intros st. reflexivity. Qed.

Lemma keeps_processOneFile (smooth : filter) (detect : detector)
    (net : network) (file : File) (index total : nat) :
  keeps_archive (Batch.processOneFile smooth detect net file index total).
Proof.
  unfold Batch.processOneFile.
  apply keeps_bind; [apply keeps_initLandmarker|]. intros lm.
  apply keeps_bind; [apply keeps_get|]. intros st.
  apply keeps_bind; [apply keeps_set_status|]. intros _.
  apply keeps_bind; [apply keeps_pure|]. intros img.
  apply keeps_bind; [apply keeps_pure|]. intros ctx.
  apply keeps_bind; [apply keeps_pure|]. intros faces.
  apply keeps_bind; [apply keeps_set_preview|]. intros _.
  apply keeps_bind; [apply keeps_pure|]. intros pctx.
  apply keeps_bind; [apply keeps_set_preview|]. intros _.
  destruct faces as [|f0 more].
  - apply keeps_bind; [apply keeps_set_status|]. intros _.
    apply keeps_bind; [apply keeps_toBlob|]. intros blob.
    apply keeps_ret.
  - apply keeps_bind; [apply keeps_eachFace|]. intros c'.
    apply keeps_bind; [apply keeps_toBlob|]. intros blob.
    apply keeps_ret.
Qed.

Lemma keeps_eachFile (smooth : filter) (detect : detector) (net : network)
    (imgs : list File) :
  forall (i total : nat) (zip : gmap jsstring raster),
    keeps_archive (Batch.eachFile smooth detect net imgs i total zip).
Proof.
  induction imgs as [|f more IH]; intros i total zip; simpl.
  - apply keeps_ret.
  - apply keeps_bind; [apply keeps_processOneFile|]. intros out. apply IH.
Qed.

Lemma size_list_to_set_le (l : list jsstring) :
  (size (list_to_set l : gset jsstring) <= length l)%nat.
Proof.
  induction l as [|a l IH].
  - rewrite list_to_set_nil, size_empty. simpl. lia.
  - rewrite list_to_set_cons. simpl length.
    destruct (decide (a ∈ (list_to_set l : gset jsstring))) as [Hin|Hout].
    + replace ({[a]} ∪ list_to_set l) with (list_to_set l : gset jsstring).
      * lia.
      * apply set_eq. intros x. rewrite elem_of_union, elem_of_singleton.
        split; [tauto|]. intros [->|Hx]; assumption.
    + rewrite size_union.
      * rewrite size_singleton. lia.
      * intros x Hx1 Hx2. apply elem_of_singleton in Hx1. subst x.
        exact (Hout Hx2).
Qed.

Lemma eachFile_dom (smooth : filter) (detect : detector) (net : network)
    (imgs : list File) :
  forall (i total : nat) (zip zip' : gmap jsstring raster)
         (st st' : Batch.dom),
    Batch.eachFile smooth detect net imgs i total zip st = (Some zip', st') ->
    dom zip' = dom zip ∪ list_to_set (entryNames imgs).
Proof.
  unfold entryNames.
  induction imgs as [|f more IH]; intros i total zip zip' st st'; simpl.
  - unfold Eff.ret. intros [= <- _].
    rewrite ?list_to_set_nil. symmetry. apply (right_id_L ∅ (∪)).
  - unfold Eff.bind.
    destruct (Batch.processOneFile smooth detect net f (i + 1) total st)
      as [[[name blob]|] st1] eqn:E; [|discriminate].
    intros Hrest. apply IH in Hrest. rewrite Hrest.
    destruct (batch_processOneFile_result _ _ _ _ _ _ _ _ _ _ E)
      as (_ & _ & _ & _ & _ & _ & _ & _ & _ & -> & _).
    simpl fst. rewrite dom_insert_L, ?list_to_set_cons.
    rewrite (comm_L (∪) {[_]} (dom zip)), (assoc_L (∪)). reflexivity.
Qed.

(** A run that leaves an archive behind has put into it one entry for every
    entry name: at most one per image file, and exactly one per image file
    when no two of them share their entry name. *)
Lemma batch_archive_entries (smooth : filter) (detect : detector)
    (net : network) (files : list File) (st st' : Batch.dom)
    (r : option unit) (zip : gmap jsstring raster) :
  Batch.lastZipBlob st = None ->
  Batch.handleFiles smooth detect net files st = (r, st') ->
  Batch.lastZipBlob st' = Some zip ->
  let imgs :=
    List.filter (fun f => startsWith (f_type f) (lit "image/")) files in
  Batch.status st' = Batch.StDone (length imgs)
  /\ dom zip = list_to_set (entryNames imgs)
  /\ (size zip <= length imgs)%nat
  /\ (NoDup (entryNames imgs) -> size zip = length imgs).
Proof.
  intros Hnone Hrun Hzip imgs. unfold Batch.handleFiles in Hrun.
  destruct files as [|f0 fs].
  { unfold Eff.ret in Hrun. injection Hrun as _ <-. congruence. }
  fold imgs in Hrun. destruct imgs as [|g0 gs] eqn:Eimgs.
  { unfold Eff.modify in Hrun. injection Hrun as _ <-.
    simpl in Hzip. congruence. }
  unfold Eff.bind, Eff.modify, Eff.try_catch in Hrun.
  match type of Hrun with
  | context [Batch.eachFile smooth detect net ?l ?i ?t ?z ?s] =>
      pose proof (keeps_eachFile smooth detect net l i t z s) as Hkeep;
      destruct (Batch.eachFile smooth detect net l i t z s)
        as [[z'|] st1] eqn:E
  end.
  - injection Hrun as _ <-. simpl in Hzip. injection Hzip as ->.
    apply eachFile_dom in E. rewrite dom_empty_L, (left_id_L ∅ (∪)) in E.
    assert (Hsize : size zip = size (dom zip)) by (symmetry; apply size_dom).
    split; [reflexivity|]. split; [exact E|].
    rewrite Hsize, E. split.
    + etransitivity; [apply size_list_to_set_le|].
      unfold entryNames. rewrite length_map. reflexivity.
    + intros Hnd. rewrite size_list_to_set by exact Hnd.
      unfold entryNames. apply length_map.
  - injection Hrun as _ <-. simpl in Hzip, Hkeep. congruence.
Qed.

(** C6. Two image files whose names differ in the extension only, each
    decodable and without faces: the run ends with the status that reports
    two images, and the archive holds one entry. *)
Theorem batch_name_collision :
  let run := Batch.handleFiles nearest_filter noFaces online [fileA; fileB] idle in
  fst run = Some tt
  /\ Batch.status (snd run) = Batch.StDone 2
  /\ Batch.entryName (f_name fileA) = Batch.entryName (f_name fileB)
  /\ (size <$> Batch.lastZipBlob (snd run)) = Some 1%nat.
Proof.
  cbv zeta. repeat split; vm_compute; reflexivity.
Qed.

(** ** The two compositors side by side *)

Lemma fold_left_sum (f : point -> Q) (pts : list point) (acc : Q) :
  fold_left (fun s p => s + f p) pts acc == acc + Spec.sum (List.map f pts).
Proof.
  revert acc. induction pts as [|p pts IH]; intros acc; simpl.
  - ring.
  - rewrite IH. ring.
Qed.

(** The centroid is the arithmetic mean of the points. *)
Lemma centroid_mean (pts : list point) :
  pts <> [] ->
  px (Single.centroid pts) * inject_Z (Z.of_nat (length pts))
    == Spec.sum (List.map px pts)
  /\ py (Single.centroid pts) * inject_Z (Z.of_nat (length pts))
       == Spec.sum (List.map py pts).
Proof.
  intros Hne.
  assert (Hn : ~ inject_Z (Z.of_nat (length pts)) == 0).
  { intros Hz. destruct pts as [|p pts]; [congruence|].
    assert (Hp : inject_Z 0 < inject_Z (Z.of_nat (length (p :: pts))))
      by (rewrite <- Zlt_Qlt; simpl length; lia).
    change (inject_Z 0) with 0 in Hp. lra. }
  unfold Single.centroid, px, py. simpl fst. simpl snd.
  split.
  - rewrite (fold_left_sum fst). rewrite Qplus_0_l.
    rewrite Qmult_comm. apply Qmult_div_r, Hn.
  - rewrite (fold_left_sum snd). rewrite Qplus_0_l.
    rewrite Qmult_comm. apply Qmult_div_r, Hn.
Qed.

Lemma paste_path (smooth : filter) (c : Canvas.ctx2d) (src : raster)
    (p0 : point) (rest : list point) (x y cw ch bs : number) :
  empty_raster src = false -> 1 <= cw -> 1 <= ch ->
  exists c' : Canvas.ctx2d,
    (buildMosaicPatch smooth src x y cw ch bs
     ≫= fun mosaicked => pasteClipped smooth c p0 rest mosaicked x y)
    = Some c'
    /\ cur_path c' = Spec.closedLoop (p0 :: rest).
Proof.
  intros Hsrc Hcw Hch.
  destruct (buildMosaicPatch_some smooth src x y cw ch bs Hsrc Hcw Hch)
    as (patch & Ep & _ & _ & Hne).
  rewrite Ep. unfold mbind, option_bind. cbv beta iota.
  destruct (pasteClipped_spec smooth c p0 rest patch x y Hne)
    as (c' & E & _ & _ & P & _).
  exists c'. split; [exact E | exact P].
Qed.

Lemma compositors_paths (smooth : filter) (c : Canvas.ctx2d) (f : face)
    (W H s : number) :
  empty_raster (canvas c) = false ->
  (3 <= length (contourPoints f W H))%nat ->
  exists cB cS : Canvas.ctx2d,
    Batch.mosaicFaceOval smooth c f W H s = Some cB
    /\ Single.mosaicFaceOval smooth c f W H = Some cS
    /\ cur_path cB = Spec.closedLoop (contourPoints f W H)
    /\ cur_path cS
       = Spec.closedLoop
           (Spec.expandAbout (Single.centroid (contourPoints f W H)) 1.12
              (contourPoints f W H)).
Proof.
  intros Hc Hlen.
  assert (Ex : Spec.expandAbout (Single.centroid (contourPoints f W H)) 1.12
                 (contourPoints f W H)
               = Single.expandPoints (contourPoints f W H)).
  { unfold Spec.expandAbout, Single.expandPoints. cbv zeta.
    unfold Single.expand. reflexivity. }
  rewrite Ex. clear Ex.
  assert (Hlen' : (3 <= length (Single.expandPoints (contourPoints f W H)))%nat).
  { unfold Single.expandPoints. cbv zeta. rewrite length_map. exact Hlen. }
  remember (Single.expandPoints (contourPoints f W H)) as q eqn:Eq.
  destruct q as [|q0 qrest]; [simpl in Hlen'; lia|]. symmetry in Eq.
  remember (contourPoints f W H) as p eqn:Ep.
  destruct p as [|p0 rest]; [simpl in Hlen; lia|]. symmetry in Ep.
  destruct (Batch.region (bounds p0 rest) W H) as [[[x y] cw] ch] eqn:Er.
  destruct (batch_region_size _ _ _ _ _ _ _ Er) as [Hcw Hch].
  destruct (Single.region (bounds q0 qrest) W H) as [[[x' y'] cw'] ch'] eqn:Er'.
  destruct (single_region_size _ _ _ _ _ _ _ Er') as [Hcw' Hch'].
  destruct (paste_path smooth c (canvas c) p0 rest x y cw ch s Hc Hcw Hch)
    as (cB & EB & PB).
  destruct (paste_path smooth c (canvas c) q0 qrest x' y' cw' ch'
              (Single.effectiveBlock (bounds q0 qrest)) Hc Hcw' Hch')
    as (cS & ES & PS).
  exists cB, cS.
  split; [|split; [|split]]; [| |exact PB|exact PS].
  - rewrite (batch_mosaicFaceOval_eq smooth c f W H s p0 rest x y cw ch
               Ep Hlen Er). exact EB.
  - rewrite <- Ep in Eq.
    rewrite (single_mosaicFaceOval_eq smooth c f W H q0 qrest x' y' cw' ch'
               Eq Hlen' Er'). exact ES.
Qed.

Lemma regions_padding (b : number * number * number * number)
    (W H : number) :
  Batch.region b W H = Spec.boundingRegion 0.10 b W H
  /\ Single.region b W H = Spec.boundingRegion 0.08 b W H.
Proof. destruct b as [[[minX minY] maxX] maxY]. split; reflexivity. Qed.

(** On the square face the single-image tool gives two neighbouring pixels
    of the margin between the raw and the expanded square one colour. *)
Lemma square_single (smooth : filter) :
  exists cS : Canvas.ctx2d,
    Single.mosaicFaceOval smooth (canvasOf (gradient 64 64)) squareFace 64 64
    = Some cS
    /\ pixel cS 12 30 = pixel cS 13 30.
Proof.
  let pts :=
    eval vm_compute in (Single.expandPoints (contourPoints squareFace 64 64)) in
  match pts with
  | ?p0 :: ?rest =>
      assert (Epts : Single.expandPoints (contourPoints squareFace 64 64)
                     = p0 :: rest)
        by (vm_compute; reflexivity);
      let r := eval vm_compute in (Single.region (bounds p0 rest) 64 64) in
      match r with
      | (?x, ?y, ?cw, ?ch) =>
          assert (Er : Single.region (bounds p0 rest) 64 64 = (x, y, cw, ch))
            by (vm_compute; reflexivity);
          rewrite (single_mosaicFaceOval_eq smooth (canvasOf (gradient 64 64))
                     squareFace 64 64 p0 rest x y cw ch Epts
                     ltac:(vm_compute; lia) Er);
          destruct (paste_blocks smooth (canvasOf (gradient 64 64))
                      (canvas (canvasOf (gradient 64 64))) p0 rest x y cw ch
                      (Single.effectiveBlock (bounds p0 rest))
                      ltac:(reflexivity) ltac:(vm_compute; discriminate)
                      ltac:(vm_compute; discriminate)
                      ltac:(vm_compute; discriminate))
            as (t2 & cS & E & Hpix)
      end
  end.
  exists cS. split; [exact E|].
  rewrite (Hpix 12 30 3 21)%Z;
    try (vm_compute; reflexivity); try (vm_compute; split; congruence).
  rewrite (Hpix 13 30 4 21)%Z;
    try (vm_compute; reflexivity); try (vm_compute; split; congruence).
Qed.

(** On the square face the batch tool leaves those two pixels alone. *)
Lemma square_batch (smooth : filter) (s : number) :
  exists cB : Canvas.ctx2d,
    Batch.mosaicFaceOval smooth (canvasOf (gradient 64 64)) squareFace 64 64 s
    = Some cB
    /\ pixel cB 12 30 = 1932%N /\ pixel cB 13 30 = 1933%N.
Proof.
  destruct (contourPoints squareFace 64 64) as [|p0 rest] eqn:Epts;
    [vm_compute in Epts; discriminate|].
  assert (Hlen : (3 <= length (p0 :: rest))%nat).
  { rewrite <- Epts. vm_compute. lia. }
  destruct (Batch.region (bounds p0 rest) 64 64) as [[[x y] cw] ch] eqn:Er.
  destruct (batch_region_size _ _ _ _ _ _ _ Er) as [Hcw Hch].
  rewrite (batch_mosaicFaceOval_eq smooth (canvasOf (gradient 64 64))
             squareFace 64 64 s p0 rest x y cw ch Epts Hlen Er).
  destruct (paste_outside smooth (canvasOf (gradient 64 64))
              (canvas (canvasOf (gradient 64 64))) p0 rest x y cw ch s
              eq_refl Hcw Hch)
    as (cB & E & _ & _ & Hout).
  exists cB. split; [exact E|].
  rewrite <- Epts in Hout.
  split; rewrite Hout by (vm_compute; reflexivity); reflexivity.
Qed.

(** C10. For a face with a contour on a surface with pixels, both
    compositors return; the batch tool has traced and clipped to the closed
    loop through the raw contour points, the single-image tool to the loop
    through those points moved away from their centroid by the factor 1.12;
    the centroid is the arithmetic mean of the points; the batch tool pads
    the bounding box by 0.10 of its size, the single-image tool by 0.08; and
    there are a surface and a face on which the two outputs differ in a
    pixel. *)
Theorem entry_points_differ (smooth : filter) :
  (forall (c : Canvas.ctx2d) (f : face) (W H s : number),
     empty_raster (canvas c) = false ->
     (3 <= length (contourPoints f W H))%nat ->
     exists cB cS : Canvas.ctx2d,
       Batch.mosaicFaceOval smooth c f W H s = Some cB
       /\ Single.mosaicFaceOval smooth c f W H = Some cS
       /\ cur_path cB = Spec.closedLoop (contourPoints f W H)
       /\ cur_path cS
          = Spec.closedLoop
              (Spec.expandAbout (Single.centroid (contourPoints f W H)) 1.12
                 (contourPoints f W H)))
  /\ (forall pts : list point,
        pts <> [] ->
        px (Single.centroid pts) * inject_Z (Z.of_nat (length pts))
          == Spec.sum (List.map px pts)
        /\ py (Single.centroid pts) * inject_Z (Z.of_nat (length pts))
             == Spec.sum (List.map py pts))
  /\ (forall (b : number * number * number * number) (W H : number),
        Batch.region b W H = Spec.boundingRegion 0.10 b W H
        /\ Single.region b W H = Spec.boundingRegion 0.08 b W H)
  /\ exists (c : Canvas.ctx2d) (f : face) (W H s : number)
            (cB cS : Canvas.ctx2d) (i j : Z),
       Batch.mosaicFaceOval smooth c f W H s = Some cB
       /\ Single.mosaicFaceOval smooth c f W H = Some cS
       /\ pixel cB i j <> pixel cS i j.
Proof.
  split; [|split; [|split]].
  - intros c f W H s. apply compositors_paths.
  - apply centroid_mean.
  - apply regions_padding.
  - destruct (square_batch smooth 16) as (cB & EB & B1 & B2).
    destruct (square_single smooth) as (cS & ES & S12).
    exists (canvasOf (gradient 64 64)), squareFace, 64, 64, 16, cB, cS.
    destruct (N.eq_dec (pixel cS 12 30) 1932%N) as [Heq|Hne].
    + exists 13%Z, 30%Z. split; [exact EB|]. split; [exact ES|].
      rewrite B2, <- S12, Heq. discriminate.
    + exists 12%Z, 30%Z. split; [exact EB|]. split; [exact ES|].
      rewrite B1. intros Hc. apply Hne. symmetry. exact Hc.
Qed.

(** ** The theorems at sample inputs *)


Lemma skip_correctness_witness :
  (length (contourPoints (take 11 squareFace) 64%Q 64%Q) < 3)%nat
  /\ Batch.mosaicFaceOval nearest_filter (canvasOf (gradient 64 64))
       (take 11 squareFace) 64 64 16
     = Some (canvasOf (gradient 64 64)).
Proof.
  assert (H : (length (contourPoints (take 11 squareFace) 64%Q 64%Q) < 3)%nat)
    by (vm_compute; lia).
  split; [exact H|].
  exact (proj1 (proj1 (skip_correctness nearest_filter (take 11 squareFace)
                         64 64 16 H)
                  (canvasOf (gradient 64 64)))).
Defined.


Lemma block_size_policy_witness :
  exists (p0 : point) (rest : list point) (x y cw ch : number),
    contourPoints squareFace 64 64 = p0 :: rest
    /\ (3 <= length (p0 :: rest))%nat
    /\ Batch.region (bounds p0 rest) 64 64 = (x, y, cw, ch)
    /\ Batch.mosaicFaceOval nearest_filter (canvasOf (gradient 64 64))
         squareFace 64 64 16
       = buildMosaicPatch nearest_filter (canvas (canvasOf (gradient 64 64)))
           x y cw ch 16
         ≫= fun mosaicked =>
              pasteClipped nearest_filter (canvasOf (gradient 64 64)) p0 rest
                mosaicked x y.
Proof.
  let pts := eval vm_compute in (contourPoints squareFace 64 64) in
  match pts with
  | ?p0 :: ?rest =>
      let r := eval vm_compute in (Batch.region (bounds p0 rest) 64 64) in
      match r with
      | (?x, ?y, ?cw, ?ch) =>
          exists p0, rest, x, y, cw, ch;
          assert (H1 : contourPoints squareFace 64 64 = p0 :: rest)
            by (vm_compute; reflexivity);
          assert (H2 : (3 <= length (p0 :: rest))%nat) by (vm_compute; lia);
          assert (H3 : Batch.region (bounds p0 rest) 64 64 = (x, y, cw, ch))
            by (vm_compute; reflexivity)
      end
  end.
  split; [exact H1|]. split; [exact H2|]. split; [exact H3|].
  exact (proj1 (proj2 (proj2 (block_size_policy nearest_filter noFaces online)))
           (canvasOf (gradient 64 64)) squareFace 64 64 16 _ _ _ _ _ _
           H1 H2 H3).
Defined.


Lemma entry_points_differ_witness :
  empty_raster (canvas (canvasOf (gradient 64 64))) = false
  /\ (3 <= length (contourPoints squareFace 64%Q 64%Q))%nat
  /\ exists cB cS : Canvas.ctx2d,
       Batch.mosaicFaceOval nearest_filter (canvasOf (gradient 64 64))
         squareFace 64 64 16 = Some cB
       /\ Single.mosaicFaceOval nearest_filter (canvasOf (gradient 64 64))
            squareFace 64 64 = Some cS
       /\ cur_path cB = Spec.closedLoop (contourPoints squareFace 64 64)
       /\ cur_path cS
          = Spec.closedLoop
              (Spec.expandAbout
                 (Single.centroid (contourPoints squareFace 64 64)) 1.12
                 (contourPoints squareFace 64 64)).
Proof.
  assert (H1 : empty_raster (canvas (canvasOf (gradient 64 64))) = false)
    by reflexivity.
  assert (H2 : (3 <= length (contourPoints squareFace 64%Q 64%Q))%nat)
    by (vm_compute; lia).
  split; [exact H1|]. split; [exact H2|].
  exact (proj1 (entry_points_differ nearest_filter)
           (canvasOf (gradient 64 64)) squareFace 64 64 16 H1 H2).
Defined.
